(** * Shared-memory object model of [wasm-wasi-kit/src/common/sharedObject.ts]

    A shallow embedding of the layout compiler ([Record.Type]), the arena
    wrapper ([MemoryImpl], [MemoryLocation]) and the two synchronisation
    primitives ([Lock], [Signal]), followed by the properties established
    about them.

    Conventions.  JavaScript numbers that hold sizes, pointers and counters
    are modelled by [Z].  The numbers of the source are binary64 floating
    point numbers, whose arithmetic on integers is exact below 2^53 and
    rounds from there on; pointers and sizes inside a buffer and the local
    counter of a lock stay far below that, and the statements about the
    layout compiler, whose running offset is a sum over arbitrarily many
    fields, carry the bound as a hypothesis.  The elements of an
    [Int32Array] are modelled by [Z] with the wrap-around of the typed array
    written out ([Atomics.ToInt32]).  A thrown exception is the [Throw]
    branch of [result]. *)

From Stdlib Require Import ZArith Lia Strings.Byte.
From stdpp Require Import base list strings.

Local Open Scope Z_scope.

(** ** Exceptions

    The classes of the errors thrown.  Of a message that the source builds
    from a template, the fixed text is kept. *)

Inductive exn : Type :=
| Error (message : string)
| RangeError (message : string)
| MemoryError (message : string)
| ComponentModelTrap (message : string).

Inductive result (A : Type) : Type :=
| Ok (a : A)
| Throw (e : exn).
Arguments Ok {A} a.
Arguments Throw {A} e.

#[global] Instance result_ret : MRet result := fun A a => Ok a.
#[global] Instance result_bind : MBind result := fun A B k r =>
  match r with
  | Ok a => k a
  | Throw e => Throw e
  end.

(** ** Alignment *)

Module Alignment.

(** Modelled from the spec: the enumeration [Alignment] is declared in the
    package [@vscode/wasm-component-model], which [sharedObject.ts] imports.
    The spec names the alignments 1, 2, 4 and 8 and calls the first one byte
    alignment. *)
Inductive t : Type := byte | halfWord | word | doubleWord.

Definition to_Z (a : t) : Z :=
  match a with
  | byte => 1
  | halfWord => 2
  | word => 4
  | doubleWord => 8
  end.

(** [Math.max] on two members of the enumeration. *)
Definition max (a b : t) : t := if to_Z a <? to_Z b then b else a.

(** Modelled from the spec: [Alignment.align] is defined in the package
    [@vscode/wasm-component-model], which [sharedObject.ts] imports.  The
    spec has the layout compiler round the running offset up to the
    field's alignment: the least multiple of the alignment that is not
    below the offset. *)
Definition align (ptr : Z) (alignment : t) : Z :=
  (ptr + to_Z alignment - 1) / to_Z alignment * to_Z alignment.

End Alignment.

(** ** Property types *)

(** [BasePropertyType]: what the layout compiler reads of a [ValueType] or an
    [ObjectType]. *)
Module PropertyType.
Record t : Type := mk { size : Z; alignment : Alignment.t }.
End PropertyType.

(** A JavaScript [Map] with string keys: entries in insertion order; [set] on
    a key that is present replaces its value in place. *)
Module JsMap.
Section WithValue.
Context {V : Type}.

Definition t : Type := list (string * V).

Definition empty : t := [].

Fixpoint get (m : t) (key : string) : option V :=
  match m with
  | [] => None
  | (k, v) :: rest => if String.eqb k key then Some v else get rest key
  end.

Definition has (m : t) (key : string) : bool :=
  match get m key with Some _ => true | None => false end.

Fixpoint set (m : t) (key : string) (value : V) : t :=
  match m with
  | [] => [(key, value)]
  | (k, v) :: rest =>
      if String.eqb k key then (k, value) :: rest
      else (k, v) :: set rest key value
  end.
End WithValue.
Arguments t V : clear implicits.
End JsMap.

(** ** Record.Type: the layout compiler *)

Module Record_Type.

Definition Properties : Type := list (string * PropertyType.t).

Record FieldInfo : Type := mkFieldInfo { type : PropertyType.t; offset : Z }.

Record t : Type := mk {
  alignment : Alignment.t;
  size : Z;
  fields : JsMap.t FieldInfo
}.

(** A record type is an [ObjectType], hence usable as a field of another
    record. *)
Definition as_property (r : t) : PropertyType.t :=
  PropertyType.mk (size r) (alignment r).

(** [props.length === 0 ? [] : props.length === 1 ? props[0] :
    props.reduce((r, p) => r.concat(p), [])] *)
Definition flatten (props : list Properties) : Properties :=
  match props with
  | [] => []
  | [p] => p
  | _ => fold_left (fun r p => r ++ p) props []
  end.

(** The body of [for (const [name, type] of properties)], threading the
    three locals [alignment], [size] and [fieldsMap].  (The object
    [fields] filled next to [fieldsMap] is dropped when the constructor
    returns.)  The running offset [size] is computed in [Z]: this is what
    the source computes as long as the sizes are not negative and the
    running offset stays below 2^53; beyond that the source rounds, and the
    loop below does not describe it. *)
Fixpoint loop (properties : Properties) (alignment : Alignment.t) (size : Z)
    (fieldsMap : JsMap.t FieldInfo)
  : result (Alignment.t * Z * JsMap.t FieldInfo) :=
  match properties with
  | [] => Ok (alignment, size, fieldsMap)
  | (name, type) :: rest =>
      if JsMap.has fieldsMap name then
        Throw (ComponentModelTrap ("Duplicate property " +:+ name))
      else
        let alignment := Alignment.max alignment (PropertyType.alignment type) in
        let size := Alignment.align size (PropertyType.alignment type) in
        let info := {| offset := size; type := type |} in
        let fieldsMap := JsMap.set fieldsMap name info in
        let size := size + PropertyType.size type in
        loop rest alignment size fieldsMap
  end.

Definition constructor (props : list Properties) : result t :=
  let properties := flatten props in
  '(alignment, size, fieldsMap) ← loop properties Alignment.byte 0 JsMap.empty;
  Ok {| alignment := alignment; size := size; fields := fieldsMap |}.

Definition getField (r : t) (name : string) : option FieldInfo :=
  JsMap.get (fields r) name.

Definition hasField (r : t) (name : string) : bool :=
  JsMap.has (fields r) name.

End Record_Type.

(** Modelled from the spec: [u32] is defined in the package
    [@vscode/wasm-component-model], which [sharedObject.ts] imports; the
    spec describes 32-bit cells, four bytes wide and word aligned. *)
Definition u32 : PropertyType.t := PropertyType.mk 4 Alignment.word.

(** [Lock.Type] and [Signal.Type] take their size and alignment from [u32];
    [SharedObject.properties] are the fields every shared object starts
    with. *)
Definition Lock_Type : PropertyType.t :=
  PropertyType.mk (PropertyType.size u32) (PropertyType.alignment u32).
Definition Signal_Type : PropertyType.t :=
  PropertyType.mk (PropertyType.size u32) (PropertyType.alignment u32).
Definition SharedObject_properties : Record_Type.Properties :=
  [("_size"%string, u32); ("_id"%string, u32); ("_lock"%string, Lock_Type)].

(** ** Typed arrays over the bytes of an [ArrayBuffer] *)

Definition byteLength (buffer : list byte) : Z := Z.of_nat (length buffer).

Module Uint8Array.

(** A view: the elements [byteOffset .. byteOffset + length - 1] of the
    buffer it was created on. *)
Record t : Type := mk { byteOffset : Z; length : Z }.

(** [new Uint8Array(buffer, byteOffset, length)]: a [RangeError] unless the
    view lies inside the buffer. *)
Definition new (buffer : list byte) (byteOffset length : Z) : result t :=
  if (byteOffset <? 0) || (length <? 0)
     || (byteLength buffer <? byteOffset + length)
  then Throw (RangeError "Invalid typed array length")
  else Ok (mk byteOffset length).

(** [view.fill(value)]: every element of the view becomes [value]. *)
Definition fill (view : t) (value : byte) (buffer : list byte) : list byte :=
  take (Z.to_nat (byteOffset view)) buffer
  ++ replicate (Z.to_nat (length view)) value
  ++ drop (Z.to_nat (byteOffset view + length view)) buffer.

(** How [copyWithin] turns an argument into an index of an array of
    [len] elements: negative arguments count from the end, and the result
    is clamped to [0 .. len]. *)
Definition relative_index (len i : Z) : Z :=
  if i <? 0 then Z.max (len + i) 0 else Z.min i len.

(** [new Uint8Array(buffer).copyWithin(target, start, end)]: the elements
    [start .. end - 1], as they were before the call, are written from
    [target] on; the copy stops at the end of the array. *)
Definition copyWithin (buffer : list byte) (target start end_ : Z) : list byte :=
  let len := byteLength buffer in
  let to := relative_index len target in
  let from := relative_index len start in
  let final := relative_index len end_ in
  let count := Z.min (final - from) (len - to) in
  if 0 <? count then
    take (Z.to_nat to) buffer
    ++ take (Z.to_nat count) (drop (Z.to_nat from) buffer)
    ++ drop (Z.to_nat (to + count)) buffer
  else buffer.

End Uint8Array.

(** ** SharedMemory *)

(** [SharedMemory.Exports]: the allocator exported by the WebAssembly module.
    The exports run inside the module, on the linear memory they are handed;
    they may trap, and they may change the memory. *)
Record Exports : Type := mkExports {
  malloc : Z -> list byte -> result Z * list byte;
  free : Z -> list byte -> result unit * list byte;
  aligned_alloc : Z -> Z -> list byte -> result Z * list byte
}.

(** The read-only fields of [MemoryImpl].  What [this.memory.buffer] holds
    changes, and is part of [State]. *)
Record MemoryImpl : Type := mkMemoryImpl {
  id : string;
  exports : Exports
}.

(** What [RAL().console.error] is called with. *)
Inductive LogEntry : Type :=
| AllocFailed (align : Alignment.t) (size : Z) (bufferSize : Z)
| FreeFailed (bufferSize : Z).

Record State : Type := mkState {
  buffer : list byte;
  console : list LogEntry
}.

(** Modelled from the spec: the classes [BaseMemoryRange], [MemoryRange] and
    [ReadonlyMemoryRange] are defined in the package
    [@vscode/wasm-component-model], which [sharedObject.ts] imports.  The
    spec gives a range a reference to its memory, [ptr], [size] and, when
    mutable, an allocated-flag; its accessors assert that the access stays
    inside the range. *)
Record BaseMemoryRange : Type := mkBaseMemoryRange {
  memory : MemoryImpl;
  ptr : Z;
  size : Z
}.

Definition ReadonlyMemoryRange : Type := BaseMemoryRange.

Record MemoryRange : Type := mkMemoryRange {
  base :> BaseMemoryRange;
  isAllocated : bool
}.

Module Range.

(** Modelled from the spec: the constructor of [MemoryRange], called as
    [new MemoryRange(memory, ptr, size)] by [alloc] and as
    [new MemoryRange(memory, ptr, size, true)] by [preAllocated].  The spec
    gives a range one flag; it holds the fourth argument, [false] when the
    argument is left out. *)
Definition new (memory : MemoryImpl) (ptr size : Z) (isPreallocated : bool)
  : MemoryRange :=
  mkMemoryRange (mkBaseMemoryRange memory ptr size) isPreallocated.

(** Modelled from the spec: [getUint8View(offset)], the bytes of the range
    from [offset] to its end as a [Uint8Array] on the memory's buffer. *)
Definition getUint8View (range : BaseMemoryRange) (offset : Z)
    (bytes : list byte) : result Uint8Array.t :=
  if (offset <? 0) || (size range <? offset)
  then Throw (MemoryError "Memory access is out of bounds")
  else Uint8Array.new bytes (ptr range + offset) (size range - offset).

(** Modelled from the spec: [getUint8(offset)], the byte at [offset] of
    the range. *)
Definition getUint8 (range : BaseMemoryRange) (offset : Z)
    (bytes : list byte) : result byte :=
  if (offset <? 0) || (size range <? offset + 1)
  then Throw (MemoryError "Memory access is out of bounds")
  else match bytes !! Z.to_nat (ptr range + offset) with
       | Some b => Ok b
       | None => Throw (RangeError "Offset is outside the bounds of the DataView")
       end.

End Range.

Module SharedMemory.

(** [alloc(align, size)].  The first [match] is the [try] block, the second
    the [catch] clause: log, then throw the same error again. *)
Definition alloc (this : MemoryImpl) (align : Alignment.t) (size : Z)
    (st : State) : result MemoryRange * State :=
  let '(returned, bytes) :=
    aligned_alloc (exports this) (Alignment.to_Z align) size (buffer st) in
  let attempt : result MemoryRange * list byte :=
    match returned with
    | Throw error => (Throw error, bytes)
    | Ok ptr =>
        if ptr =? 0 then (Throw (Error "Allocation failed"), bytes)
        else
          let result := Range.new this ptr size false in
          match Range.getUint8View result 0 bytes with
          | Throw error => (Throw error, bytes)
          | Ok view => (Ok result, Uint8Array.fill view x00 bytes)
          end
    end in
  match attempt with
  | (Ok result, bytes) => (Ok result, mkState bytes (console st))
  | (Throw error, bytes) =>
      (Throw error,
       mkState bytes (console st ++ [AllocFailed align size (byteLength bytes)]))
  end.

Definition realloc (this : MemoryImpl) (_range : MemoryRange)
    (_align : Alignment.t) (_newSize : Z) : result MemoryRange :=
  Throw (Error "Not implemented").

Definition preAllocated (this : MemoryImpl) (ptr size : Z) (st : State)
  : result MemoryRange :=
  if byteLength (buffer st) <? ptr + size
  then Throw (MemoryError "Memory access is out of bounds")
  else Ok (Range.new this ptr size true).

(** [free(range)] *)
Definition free_ (this : MemoryImpl) (range : MemoryRange) (st : State)
  : result unit * State :=
  match free (exports this) (ptr range) (buffer st) with
  | (Ok tt, bytes) => (Ok tt, mkState bytes (console st))
  | (Throw error, bytes) =>
      (Throw error, mkState bytes (console st ++ [FreeFailed (byteLength bytes)]))
  end.

Definition readonly (this : MemoryImpl) (ptr size : Z) (st : State)
  : result ReadonlyMemoryRange :=
  if byteLength (buffer st) <? ptr + size
  then Throw (MemoryError "Memory access is out of bounds")
  else Ok (mkBaseMemoryRange this ptr size).

Definition copyWithin (this : MemoryImpl) (dest : MemoryRange)
    (src : ReadonlyMemoryRange) (st : State) : State :=
  let raw := buffer st in
  mkState (Uint8Array.copyWithin raw (ptr dest) (ptr src) (ptr src + size src))
          (console st).

End SharedMemory.

(** ** MemoryLocation *)

Module MemoryLocation.

(** [{ memory: { id }, ptr, size }] *)
Record t : Type := mk { memory_id : string; ptr : Z; size : Z }.

Definition from (memRange : BaseMemoryRange) : t :=
  let '(mkBaseMemoryRange memory ptr size) := memRange in
  {| memory_id := id memory; ptr := ptr; size := size |}.

Definition to (memory : MemoryImpl) (location : t) (st : State)
  : result MemoryRange :=
  if negb (String.eqb (id memory) (memory_id location))
  then Throw (MemoryError "Memory location does not match")
  else SharedMemory.preAllocated memory (ptr location) (size location) st.

End MemoryLocation.

(** ** Atomics on one element of an [Int32Array] *)

Module Atomics.

(** Conversion of a number to the 32-bit two's complement element type. *)
Definition ToInt32 (x : Z) : Z := (x + 2 ^ 31) mod 2 ^ 32 - 2 ^ 31.

(** The element that a [Lock] or a [Signal] owns in shared memory,
    together with the agents suspended on it in [Atomics.wait], the one
    waiting longest first. *)
Record Cell : Type := mkCell { value : Z; waiters : list nat }.

(** The values an element can hold. *)
Definition int32 (v : Z) : Prop := - 2 ^ 31 <= v < 2 ^ 31.

Definition load (c : Cell) : Z * Cell := (value c, c).

Definition store (v : Z) (c : Cell) : Z * Cell :=
  (v, mkCell (ToInt32 v) (waiters c)).

(** Returns the old value. *)
Definition add (v : Z) (c : Cell) : Z * Cell :=
  (value c, mkCell (ToInt32 (value c + v)) (waiters c)).

(** Returns the old value; the element is replaced only when the old value
    is the expected one. *)
Definition compareExchange (expected replacement : Z) (c : Cell) : Z * Cell :=
  (value c,
   if value c =? ToInt32 expected
   then mkCell (ToInt32 replacement) (waiters c)
   else c).

Inductive WaitResult : Type := ok | not_equal | timed_out.

(** [Atomics.wait(buffer, 0, v)] without a timeout, called by [agent]:
    either it returns ["not-equal"] at once, or the agent joins the
    waiters and is suspended ([None]); its call returns ["ok"] when a
    [notify] picks it. *)
Definition wait (agent : nat) (v : Z) (c : Cell) : option WaitResult * Cell :=
  if value c =? ToInt32 v
  then (None, mkCell (value c) (waiters c ++ [agent]))
  else (Some not_equal, c).

(** [Atomics.notify(buffer, 0, count)]: wakes the first [count] waiters,
    all of them when [count] is [undefined] ([None]); returns the agents
    woken. *)
Definition notify (count : option Z) (c : Cell) : list nat * Cell :=
  let n := match count with
           | None => length (waiters c)
           | Some k => Z.to_nat k
           end in
  (take n (waiters c), mkCell (value c) (drop n (waiters c))).

End Atomics.

(** ** Lock *)

Module Lock.

(** Where an agent stands inside [acquire] or [release].  Only the
    operations on the shared element are separate steps, since only they
    are visible to other agents. *)
Inductive Control : Type :=
| idle                              (* no call in progress *)
| acquire_load                      (* before [Atomics.load] *)
| acquire_exchange (value : Z)      (* before [value > 0 && compareExchange] *)
| acquire_wait (value : Z)          (* before [Atomics.wait] *)
| acquire_suspended                 (* inside [Atomics.wait] *)
| release_add                       (* before [Atomics.add] *)
| release_notify.                   (* before [Atomics.notify] *)

(** An agent's own [Lock] object on the shared element: the private field
    [lockCount], and the agent's place in the method it is running. *)
Record t : Type := mk { lockCount : Z; control : Control }.

(** The constructor: [initialise] is
    [isMemory || context?.mode === SharedObjectContext.Mode.new]. *)
Definition new (initialise : bool) (c : Atomics.Cell) : t * Atomics.Cell :=
  let c := if initialise then snd (Atomics.store 1 c) else c in
  (mk 0 idle, c).

(** Entering [acquire()]: up to the first operation on the element. *)
Definition call_acquire (this : t) : option t :=
  match control this with
  | idle =>
      if 0 <? lockCount this
      then Some (mk (lockCount this + 1) idle)
      else Some (mk (lockCount this) acquire_load)
  | _ => None
  end.

(** Entering [release()]. *)
Definition call_release (this : t) : option t :=
  match control this with
  | idle =>
      if 1 <? lockCount this
      then Some (mk (lockCount this - 1) idle)
      else Some (mk (lockCount this) release_add)
  | _ => None
  end.

(** One operation of [agent] on the element, with the agents it wakes. *)
Definition step (agent : nat) (this : t) (c : Atomics.Cell)
  : option (t * Atomics.Cell * list nat) :=
  match control this with
  | idle | acquire_suspended => None
  | acquire_load =>
      let '(value, c) := Atomics.load c in
      Some (mk (lockCount this) (acquire_exchange value), c, [])
  | acquire_exchange value =>
      if 0 <? value then
        let '(old, c) := Atomics.compareExchange value (value - 1) c in
        if old =? value
        then Some (mk 1 idle, c, [])
        else Some (mk (lockCount this) (acquire_wait value), c, [])
      else Some (mk (lockCount this) (acquire_wait value), c, [])
  | acquire_wait value =>
      match Atomics.wait agent value c with
      | (None, c) => Some (mk (lockCount this) acquire_suspended, c, [])
      | (Some _, c) => Some (mk (lockCount this) acquire_load, c, [])
      end
  | release_add =>
      let '(_, c) := Atomics.add 1 c in
      Some (mk (lockCount this) release_notify, c, [])
  | release_notify =>
      let '(woken, c) := Atomics.notify (Some 1) c in
      Some (mk 0 idle, c, woken)
  end.

(** A woken agent leaves [Atomics.wait] and goes round the loop again. *)
Definition resume (this : t) : t :=
  match control this with
  | acquire_suspended => mk (lockCount this) acquire_load
  | _ => this
  end.

(** Several agents, each with its own [Lock] object, on one element. *)
Record System : Type := mkSystem {
  cell : Atomics.Cell;
  agents : list t
}.

Inductive Action : Type :=
| Acquire (agent : nat)     (* the agent calls [acquire()] *)
| Release (agent : nat)     (* the agent calls [release()] *)
| Tick (agent : nat).       (* the agent performs its next operation *)

Definition exec (a : Action) (s : System) : option System :=
  match a with
  | Acquire i =>
      this ← agents s !! i;
      this' ← call_acquire this;
      Some (mkSystem (cell s) (<[i := this']> (agents s)))
  | Release i =>
      this ← agents s !! i;
      this' ← call_release this;
      Some (mkSystem (cell s) (<[i := this']> (agents s)))
  | Tick i =>
      this ← agents s !! i;
      '(this', c, woken) ← step i this (cell s);
      Some (mkSystem c
              (foldr (fun j l => alter resume j l) (<[i := this']> (agents s)) woken))
  end.

Fixpoint run (schedule : list Action) (s : System) : option System :=
  match schedule with
  | [] => Some s
  | a :: rest => s' ← exec a s; run rest s'
  end.

(** What holds of every system that runs: the element holds a 32-bit
    value, and so does every value an agent has loaded from it. *)
Definition wf_control (this : t) : Prop :=
  match control this with
  | acquire_exchange value | acquire_wait value => Atomics.int32 value
  | _ => True
  end.

Definition wf (s : System) : Prop :=
  Atomics.int32 (Atomics.value (cell s)) /\ Forall wf_control (agents s).

End Lock.

(** ** Signal *)

Module Signal.

(** The constructor: [initialise] is
    [isMemory || context?.mode === SharedObjectContext.Mode.new]. *)
Definition new (initialise : bool) (c : Atomics.Cell) : Atomics.Cell :=
  if initialise then snd (Atomics.store 0 c) else c.

Definition isResolved (c : Atomics.Cell) : bool * Atomics.Cell :=
  let '(value, c) := Atomics.load c in
  (value =? 1, c).

(** Returns the agents woken. *)
Definition resolve (agentsToNotify : option Z) (c : Atomics.Cell)
  : list nat * Atomics.Cell :=
  let '(_, c) := Atomics.store 1 c in
  Atomics.notify agentsToNotify c.

End Signal.

(** ** Auxiliary notions used in the statements *)

Module Layout.
Import Record_Type.

(** The entries that [loop] appends when it starts at running offset
    [size], and the running offset it ends with. *)
Fixpoint place (size : Z) (properties : Properties) : JsMap.t FieldInfo :=
  match properties with
  | [] => []
  | (name, type) :: rest =>
      let offset := Alignment.align size (PropertyType.alignment type) in
      (name, {| offset := offset; type := type |})
      :: place (offset + PropertyType.size type) rest
  end.

Fixpoint stop (size : Z) (properties : Properties) : Z :=
  match properties with
  | [] => size
  | (_, type) :: rest =>
      stop (Alignment.align size (PropertyType.alignment type)
            + PropertyType.size type) rest
  end.

(** The alignment [loop] ends with when it starts with [alignment]. *)
Fixpoint widest (alignment : Alignment.t) (properties : Properties)
  : Alignment.t :=
  match properties with
  | [] => alignment
  | (_, type) :: rest =>
      widest (Alignment.max alignment (PropertyType.alignment type)) rest
  end.

(** The declaration a field entry stems from. *)
Definition declared (entry : string * FieldInfo) : string * PropertyType.t :=
  (entry.1, type entry.2).

Definition field_size (info : FieldInfo) : Z := PropertyType.size (type info).
Definition field_alignment (info : FieldInfo) : Alignment.t :=
  PropertyType.alignment (type info).

(** Some byte belongs to both fields. *)
Definition overlap (f g : FieldInfo) : Prop :=
  exists x, offset f <= x < offset f + field_size f
            /\ offset g <= x < offset g + field_size g.

(** Sizes are of type [u32]: none is negative. *)
Definition nonneg_sizes (properties : Properties) : Prop :=
  Forall (fun p => 0 <= PropertyType.size p.2) properties.

(** The last field's offset plus its size; 0 for a record without
    fields. *)
Definition final_offset (fields : JsMap.t FieldInfo) : Z :=
  match last fields with
  | Some (_, info) => offset info + field_size info
  | None => 0
  end.

End Layout.

(** Two declarations, used as concrete inputs. *)
Definition mixed_properties : Record_Type.Properties :=
  [("flag"%string, PropertyType.mk 1 Alignment.byte);
   ("count"%string, u32);
   ("stamp"%string, PropertyType.mk 8 Alignment.doubleWord);
   ("tag"%string, PropertyType.mk 2 Alignment.halfWord)].

Definition ragged_properties : Record_Type.Properties :=
  [("count"%string, u32); ("flag"%string, PropertyType.mk 1 Alignment.byte)].

(** An allocator that hands out one fixed address and leaves the memory as
    it is; address 0 makes every allocation fail. *)
Definition fixed_exports (address : Z) : Exports :=
  {| malloc := fun _ bytes => (Ok address, bytes);
     free := fun _ bytes => (Ok tt, bytes);
     aligned_alloc := fun _ _ bytes => (Ok address, bytes) |}.

Definition arena (address : Z) : MemoryImpl :=
  mkMemoryImpl "arena" (fixed_exports address).

Definition other_arena : MemoryImpl :=
  mkMemoryImpl "other" (fixed_exports 0).

Definition eight_bytes : State :=
  mkState [x01; x02; x03; x04; x00; x00; x00; x00] [].

(** A destination of one byte and a source of four, both inside
    [eight_bytes]. *)
Definition narrow_dest : MemoryRange := Range.new (arena 0) 4 1 true.
Definition wide_src : ReadonlyMemoryRange := mkBaseMemoryRange (arena 0) 0 4.

(** Two agents on one lock: just created, and with the first agent holding
    it twice. *)
Definition fresh_lock : Lock.System :=
  Lock.mkSystem (Lock.new true (Atomics.mkCell 0 [])).2
    [(Lock.new true (Atomics.mkCell 0 [])).1;
     (Lock.new false (Atomics.mkCell 1 [])).1].

Definition held_lock : Lock.System :=
  Lock.mkSystem (Atomics.mkCell 0 []) [Lock.mk 2 Lock.idle; Lock.mk 0 Lock.idle].

(** ** Signal: waiting *)

Module Waiting.
Import Atomics.

(** What [wait()] does with the result of [Atomics.wait]. *)
Definition check (waited : WaitResult) (c : Cell) : result unit * Cell :=
  match waited with
  | timed_out => (Throw (Error "timed-out should never happen."), c)
  | not_equal =>
      let '(value, c) := Atomics.load c in
      if negb (value =? 1)
      then (Throw (Error "Unexpected signal value"), c)
      else (Ok tt, c)
  | ok => (Ok tt, c)
  end.

(** [Signal.wait()], called by [agent].  [None]: the agent is suspended in
    [Atomics.wait]; once woken, the call ends as [check ok] does. *)
Definition wait (agent : nat) (c : Cell) : option (result unit) * Cell :=
  match Atomics.wait agent 0 c with
  | (None, c) => (None, c)
  | (Some waited, c) => let '(outcome, c) := check waited c in (Some outcome, c)
  end.

End Waiting.

(** ** Notions for the discipline of a lock *)

Module Exclusion.
Import Atomics Lock.

(** 1 for an agent inside its critical section, 0 otherwise.  The critical
    section lasts from the return of the outermost [acquire()] to the
    addition with which the outermost [release()] gives the element back. *)
Definition holding (this : Lock.t) : Z :=
  match control this with
  | idle => if 0 <? lockCount this then 1 else 0
  | release_add => 1
  | _ => 0
  end.

Definition holders (l : list Lock.t) : Z :=
  foldr (fun this n => holding this + n) 0 l.

(** The local counter agrees with the place the agent is at. *)
Definition sound (this : Lock.t) : Prop :=
  match control this with
  | idle => 0 <= lockCount this
  | release_add | release_notify => lockCount this = 1
  | _ => lockCount this = 0
  end.

(** An action that is not a [release()] by an agent whose local counter
    is 0. *)
Definition matched (a : Action) (s : System) : Prop :=
  match a with
  | Release i => forall this, agents s !! i = Some this -> 0 < lockCount this
  | _ => True
  end.

(** A schedule in which every action, at the state it is taken in, is
    [matched]. *)
Fixpoint disciplined (schedule : list Action) (s : System) : Prop :=
  match schedule with
  | [] => True
  | a :: rest =>
      matched a s /\ forall s', exec a s = Some s' -> disciplined rest s'
  end.

Definition exclusive (s : System) : Prop :=
  wf s /\ Forall sound (agents s)
  /\ 0 <= value (cell s)
  /\ value (cell s) + holders (agents s) = 1.

(** [n] agents on a lock that one of them has just created. *)
Definition created (n : nat) (c : Cell) : System :=
  mkSystem (Lock.new true c).2 (replicate n (Lock.new true c).1).

(** What two agents and the element look like in a system. *)
Definition view (s : System) (c : Cell) (i : nat) (a : Lock.t)
    (j : nat) (b : Lock.t) : Prop :=
  cell s = c /\ agents s !! i = Some a /\ agents s !! j = Some b.

(** An agent after the agents [woken] have been resumed. *)
Definition resumed (woken : list nat) (j : nat) (b : Lock.t) : Lock.t :=
  if bool_decide (j ∈ woken) then resume b else b.

End Exclusion.

(** The record type that [SharedObject.properties] alone compiles to. *)
Definition SharedObject_type : Record_Type.t :=
  {| Record_Type.alignment := Alignment.word;
     Record_Type.size := 12;
     Record_Type.fields :=
       [("_size"%string, Record_Type.mkFieldInfo u32 0);
        ("_id"%string, Record_Type.mkFieldInfo u32 4);
        ("_lock"%string, Record_Type.mkFieldInfo Lock_Type 8)] |}.

(** Agent 0 holds the lock once, agent 1 does not. *)
Definition contended_lock : Lock.System :=
  Lock.mkSystem (Atomics.mkCell 0 []) [Lock.mk 1 Lock.idle; Lock.mk 0 Lock.idle].

Definition sixteen_bytes : State := mkState (replicate 16 xff) [].

(** * Properties *)

(** ** The layout compiler *)

Section JsMapFacts.
Context {V : Type}.
Implicit Types (m : JsMap.t V) (k : string) (v : V).

Lemma JsMap_set_fresh m k v :
  JsMap.has m k = false -> JsMap.set m k v = m ++ [(k, v)].
Proof.
  unfold JsMap.has. induction m as [|[k0 v0] m IH]; simpl; [done|].
  destruct (String.eqb k0 k); [done|].
  intros H. by rewrite IH.
Qed.

Lemma JsMap_has_elem m k :
  JsMap.has m k = true <-> k ∈ m.*1.
Proof.
  unfold JsMap.has. induction m as [|[k0 v0] m IH]; simpl.
  - split; [done|]. by intros ?%elem_of_nil.
  - destruct (String.eqb_spec k0 k) as [->|Hne].
    + split; [|done]. intros _. left.
    + rewrite IH. split; [by right|].
      intros [?|?]%elem_of_cons; [congruence|done].
Qed.
End JsMapFacts.

Section AlignFacts.
Implicit Types (a : Alignment.t) (n : Z).

Lemma Alignment_to_Z_pos a : 0 < Alignment.to_Z a.
Proof. by destruct a. Qed.

Lemma Alignment_align_ge n a : n <= Alignment.align n a.
Proof.
  unfold Alignment.align. pose proof (Alignment_to_Z_pos a) as Hpos.
  pose proof (Z.mul_succ_div_gt (n + Alignment.to_Z a - 1) _ Hpos). lia.
Qed.

Lemma Alignment_align_lt n a : Alignment.align n a < n + Alignment.to_Z a.
Proof.
  unfold Alignment.align. pose proof (Alignment_to_Z_pos a) as Hpos.
  pose proof (Z.mul_div_le (n + Alignment.to_Z a - 1) _ Hpos). lia.
Qed.

Lemma Alignment_align_divide n a : (Alignment.to_Z a | Alignment.align n a).
Proof. unfold Alignment.align. apply Z.divide_factor_r. Qed.

Lemma Alignment_align_id n a :
  (Alignment.to_Z a | n) -> Alignment.align n a = n.
Proof.
  intros [q ->]. pose proof (Alignment_align_ge (q * Alignment.to_Z a) a).
  pose proof (Alignment_align_lt (q * Alignment.to_Z a) a).
  destruct (Alignment_align_divide (q * Alignment.to_Z a) a) as [q' Hq'].
  rewrite Hq' in *. pose proof (Alignment_to_Z_pos a).
  assert (q' = q) as -> by nia. done.
Qed.

Lemma Alignment_max_l a b : Alignment.to_Z a <= Alignment.to_Z (Alignment.max a b).
Proof. unfold Alignment.max. destruct (Z.ltb_spec (Alignment.to_Z a) (Alignment.to_Z b)); lia. Qed.

Lemma Alignment_max_r a b : Alignment.to_Z b <= Alignment.to_Z (Alignment.max a b).
Proof. unfold Alignment.max. destruct (Z.ltb_spec (Alignment.to_Z a) (Alignment.to_Z b)); lia. Qed.

Lemma Alignment_max_cases a b : Alignment.max a b = a \/ Alignment.max a b = b.
Proof. unfold Alignment.max. destruct (_ <? _); auto. Qed.
End AlignFacts.

Section LayoutFacts.
Import Record_Type Layout.
Implicit Types (ps : Properties) (fm : JsMap.t FieldInfo).

Lemma flatten_concat (props : list Properties) : flatten props = concat props.
Proof.
  assert (forall (l : list Properties) acc,
             fold_left (fun r p => r ++ p) l acc = acc ++ concat l) as Hfold.
  { induction l as [|p l IH]; intros acc; simpl.
    - by rewrite app_nil_r.
    - by rewrite IH, <- (assoc_L (++)). }
  destruct props as [|p [|q l]]; simpl; [done| by rewrite app_nil_r |].
  rewrite Hfold. simpl. by rewrite <- (assoc_L (++)).
Qed.

Lemma loop_Ok ps : forall al sz fm r,
  loop ps al sz fm = Ok r ->
  r = (widest al ps, stop sz ps, fm ++ place sz ps).
Proof.
  induction ps as [|[name type] ps IH]; intros al sz fm r; simpl.
  - intros [= <-]. by rewrite app_nil_r.
  - destruct (JsMap.has fm name) eqn:Hhas; [done|].
    intros ->%IH. rewrite (JsMap_set_fresh _ _ _ Hhas), <- (assoc_L (++)). done.
Qed.

Lemma loop_Ok_iff ps : forall al sz fm,
  (exists r, loop ps al sz fm = Ok r)
  <-> NoDup ps.*1 /\ (forall k, k ∈ ps.*1 -> k ∉ fm.*1).
Proof.
  induction ps as [|[name type] ps IH]; intros al sz fm; simpl.
  - split; [|by eauto]. intros _. split; [constructor|].
    by intros k ?%elem_of_nil.
  - destruct (JsMap.has fm name) eqn:Hhas.
    + split; [by intros [r ?]|]. intros [_ Hfresh].
      apply JsMap_has_elem in Hhas. exfalso. eapply Hfresh; [left|done].
    + assert (name ∉ fm.*1) as Hname.
      { intros Hin%JsMap_has_elem. congruence. }
      rewrite IH, (JsMap_set_fresh _ _ _ Hhas), NoDup_cons, fmap_app. simpl.
      split.
      * intros [Hnd Hfresh]. split; [split; [|done]|].
        -- intros Hin. apply (Hfresh _ Hin), elem_of_app. right. left.
        -- intros k [->|Hin]%elem_of_cons; [done|].
           intros Hk. apply (Hfresh _ Hin), elem_of_app. by left.
      * intros [[Hnotin Hnd] Hfresh]. split; [done|].
        intros k Hin [Hk|Hk%list_elem_of_singleton]%elem_of_app.
        -- eapply Hfresh; [by right|done].
        -- by subst.
Qed.

Lemma place_declared sz ps : declared <$> place sz ps = ps.
Proof.
  revert sz. induction ps as [|[name type] ps IH]; intros sz; simpl; [done|].
  by rewrite IH.
Qed.

Lemma place_bounds ps : forall sz name info,
  nonneg_sizes ps -> (name, info) ∈ place sz ps ->
  sz <= offset info /\ (Alignment.to_Z (field_alignment info) | offset info).
Proof.
  induction ps as [|[n0 t0] ps IH]; intros sz name info Hnn; simpl.
  - by intros ?%elem_of_nil.
  - apply Forall_cons in Hnn as [Hn0 Hnn]. simpl in Hn0.
    intros [[= -> ->]|Hin]%elem_of_cons.
    + split; [apply Alignment_align_ge | apply Alignment_align_divide].
    + destruct (IH _ _ _ Hnn Hin) as [Hle Hdiv]. split; [|done].
      pose proof (Alignment_align_ge sz (PropertyType.alignment t0)). lia.
Qed.

Lemma place_ordered ps : forall sz (i j : nat) fi fj,
  nonneg_sizes ps -> (i < j)%nat ->
  place sz ps !! i = Some fi -> place sz ps !! j = Some fj ->
  offset fi.2 + field_size fi.2 <= offset fj.2.
Proof.
  induction ps as [|[n0 t0] ps IH]; intros sz i j fi fj Hnn Hij; simpl; [done|].
  apply Forall_cons in Hnn as [Hn0 Hnn].
  destruct j as [|j]; [lia|]. destruct i as [|i]; simpl.
  - intros [= <-] Hj. destruct fj as [nj infoj].
    apply list_elem_of_lookup_2 in Hj.
    by destruct (place_bounds _ _ _ _ Hnn Hj) as [Hle _].
  - apply IH; [done|lia].
Qed.

Lemma stop_final_offset ps : forall sz,
  stop sz ps = match last (place sz ps) with
               | Some (_, info) => offset info + field_size info
               | None => sz
               end.
Proof.
  induction ps as [|[n0 t0] ps IH]; intros sz; simpl; [done|].
  rewrite IH, last_cons. by destruct (last _) as [[n1 info1]|].
Qed.

Lemma widest_ge ps : forall al,
  Alignment.to_Z al <= Alignment.to_Z (widest al ps)
  /\ (forall p, p ∈ ps ->
        Alignment.to_Z (PropertyType.alignment p.2) <= Alignment.to_Z (widest al ps)).
Proof.
  induction ps as [|[n0 t0] ps IH]; intros al; simpl.
  - split; [lia|]. by intros p ?%elem_of_nil.
  - destruct (IH (Alignment.max al (PropertyType.alignment t0))) as [Hal Hps].
    pose proof (Alignment_max_l al (PropertyType.alignment t0)).
    pose proof (Alignment_max_r al (PropertyType.alignment t0)).
    split; [lia|]. intros p [->|Hin]%elem_of_cons; simpl; [lia|auto].
Qed.

Lemma widest_attained ps : forall al,
  widest al ps = al
  \/ exists p, p ∈ ps /\ widest al ps = PropertyType.alignment p.2.
Proof.
  induction ps as [|[n0 t0] ps IH]; intros al; simpl; [by left|].
  destruct (IH (Alignment.max al (PropertyType.alignment t0)))
    as [->|(p & Hin & ->)].
  - destruct (Alignment_max_cases al (PropertyType.alignment t0)) as [->| ->];
      [by left|]. right. exists (n0, t0). split; [left|done].
  - right. exists p. split; [by right|done].
Qed.

Lemma constructor_Ok (props : list Properties) r :
  constructor props = Ok r ->
  r = {| alignment := widest Alignment.byte (concat props);
         size := stop 0 (concat props);
         fields := place 0 (concat props) |}.
Proof.
  unfold constructor. rewrite flatten_concat.
  destruct (loop _ _ _ _) as [[[al sz] fm]|e] eqn:Hloop; [|done].
  apply loop_Ok in Hloop as [= -> -> ->]. by intros [= <-].
Qed.

(** The constructor returns exactly when no name is declared twice. *)
Lemma constructor_total (props : list Properties) :
  (exists r, constructor props = Ok r) <-> NoDup (concat props).*1.
Proof.
  unfold constructor. rewrite flatten_concat.
  pose proof (loop_Ok_iff (concat props) Alignment.byte 0 JsMap.empty) as Hiff.
  split.
  - intros [r Hr]. apply Hiff.
    destruct (loop _ _ _ _) as [res|e]; [by eexists|done].
  - intros Hnd. destruct Hiff as [_ [[[al sz] fm] ->]]; [|by eexists].
    split; [done|]. intros k _ ?%elem_of_nil. done.
Qed.

End LayoutFacts.

(** C1.  Whenever the constructor of [Record.Type] returns, on declarations
    whose sizes are not negative and whose running offset ends below 2^53
    (the range in which the numbers of the source are exact), the fields of
    the type are the declared ones in declaration order; every offset is a
    non-negative multiple of its field's alignment; offsets do not decrease
    along the declaration order; no two fields overlap; and the alignment
    of the type is the greatest alignment among its fields, byte alignment
    when there is no field. *)
Theorem Record_Type_layout (props : list Record_Type.Properties)
    (r : Record_Type.t) :
  Layout.nonneg_sizes (concat props) ->
  Layout.stop 0 (concat props) < 2 ^ 53 ->
  Record_Type.constructor props = Ok r ->
  Layout.declared <$> Record_Type.fields r = concat props
  /\ (forall name info, (name, info) ∈ Record_Type.fields r ->
        0 <= Record_Type.offset info
        /\ (Alignment.to_Z (Layout.field_alignment info) | Record_Type.offset info))
  /\ (forall (i j : nat) fi fj, (i < j)%nat ->
        Record_Type.fields r !! i = Some fi ->
        Record_Type.fields r !! j = Some fj ->
        Record_Type.offset fi.2 <= Record_Type.offset fj.2)
  /\ (forall (i j : nat) fi fj, i <> j ->
        Record_Type.fields r !! i = Some fi ->
        Record_Type.fields r !! j = Some fj ->
        ~ Layout.overlap fi.2 fj.2)
  /\ (forall entry, entry ∈ Record_Type.fields r ->
        Alignment.to_Z (Layout.field_alignment entry.2)
        <= Alignment.to_Z (Record_Type.alignment r))
  /\ (Record_Type.fields r = [] -> Record_Type.alignment r = Alignment.byte)
  /\ (Record_Type.fields r <> [] ->
        exists entry, entry ∈ Record_Type.fields r
                      /\ Record_Type.alignment r = Layout.field_alignment entry.2).
Proof.
  intros Hnn _ ->%constructor_Ok. simpl.
  set (ps := concat props) in *.
  assert (forall (i j : nat) fi fj, (i < j)%nat ->
            Layout.place 0 ps !! i = Some fi -> Layout.place 0 ps !! j = Some fj ->
            Record_Type.offset fi.2 + Layout.field_size fi.2
            <= Record_Type.offset fj.2) as Hord.
  { intros i j fi fj. by apply place_ordered. }
  assert (forall (i : nat) fi, Layout.place 0 ps !! i = Some fi ->
            0 <= Layout.field_size fi.2) as Hsize.
  { intros i fi Hi.
    assert (Layout.declared fi ∈ ps) as Hin.
    { rewrite <- (place_declared 0 ps). apply list_elem_of_fmap.
      exists fi. split; [done|]. by eapply list_elem_of_lookup_2. }
    unfold Layout.nonneg_sizes in Hnn. rewrite Forall_forall in Hnn.
    apply (Hnn _ Hin). }
  assert (forall entry, entry ∈ Layout.place 0 ps -> Layout.declared entry ∈ ps)
    as Hdecl.
  { intros entry Hin. rewrite <- (place_declared 0 ps).
    apply list_elem_of_fmap. by exists entry. }
  split; [apply place_declared|].
  split.
  { intros name info Hin.
    destruct (place_bounds _ _ _ _ Hnn Hin) as [Hle Hdiv]. split; [lia|done]. }
  split.
  { intros i j fi fj Hij Hi Hj.
    pose proof (Hord _ _ _ _ Hij Hi Hj). pose proof (Hsize _ _ Hi). lia. }
  split.
  { intros i j fi fj Hij Hi Hj (x & Hx1 & Hx2).
    destruct (Nat.lt_total i j) as [Hlt|[?|Hlt]]; [|done|].
    - pose proof (Hord _ _ _ _ Hlt Hi Hj). lia.
    - pose proof (Hord _ _ _ _ Hlt Hj Hi). lia. }
  destruct (widest_ge ps Alignment.byte) as [_ Hge].
  split.
  { intros entry Hin. apply (Hge _ (Hdecl _ Hin)). }
  split.
  { intros Hnil. pose proof (place_declared 0 ps) as Hps.
    rewrite Hnil in Hps. by rewrite <- Hps. }
  intros Hne.
  destruct (widest_attained ps Alignment.byte) as [Hbyte|(p & Hin & Hp)].
  - destruct (Layout.place 0 ps) as [|entry rest] eqn:Hplace; [done|].
    exists entry. split; [left|].
    assert (entry ∈ entry :: rest) as Hentry by left.
    pose proof (Hge _ (Hdecl _ Hentry)) as Hle. rewrite Hbyte in *.
    unfold Layout.field_alignment. simpl in Hle.
    by destruct (PropertyType.alignment (Record_Type.type entry.2)).
  - rewrite <- (place_declared 0 ps) in Hin.
    apply list_elem_of_fmap in Hin as (entry & -> & Hentry).
    exists entry. by split.
Qed.

Lemma Record_Type_layout_witness :
  Layout.nonneg_sizes (concat [mixed_properties])
  /\ Layout.stop 0 (concat [mixed_properties]) < 2 ^ 53
  /\ Record_Type.constructor [mixed_properties]
     = Ok {| Record_Type.alignment := Alignment.doubleWord;
             Record_Type.size := 18;
             Record_Type.fields :=
               [("flag"%string, Record_Type.mkFieldInfo (PropertyType.mk 1 Alignment.byte) 0);
                ("count"%string, Record_Type.mkFieldInfo u32 4);
                ("stamp"%string, Record_Type.mkFieldInfo (PropertyType.mk 8 Alignment.doubleWord) 8);
                ("tag"%string, Record_Type.mkFieldInfo (PropertyType.mk 2 Alignment.halfWord) 16)] |}
  /\ Layout.declared <$>
       [("flag"%string, Record_Type.mkFieldInfo (PropertyType.mk 1 Alignment.byte) 0);
        ("count"%string, Record_Type.mkFieldInfo u32 4);
        ("stamp"%string, Record_Type.mkFieldInfo (PropertyType.mk 8 Alignment.doubleWord) 8);
        ("tag"%string, Record_Type.mkFieldInfo (PropertyType.mk 2 Alignment.halfWord) 16)]
     = concat [mixed_properties].
Proof.
  assert (Layout.nonneg_sizes (concat [mixed_properties])) as Hnn.
  { repeat constructor; simpl; lia. }
  assert (Layout.stop 0 (concat [mixed_properties]) < 2 ^ 53) as Hbound.
  { reflexivity. }
  split; [exact Hnn|]. split; [exact Hbound|]. split; [reflexivity|].
  exact (proj1 (Record_Type_layout [mixed_properties] _ Hnn Hbound eq_refl)).
Defined.

(** C2, as stated, fails: a [u32] followed by a single byte gives a record
    of alignment 4 whose [size] is the final running offset, 5, while that
    offset rounded up to the alignment is 8. *)
Lemma Record_Type_size_not_rounded :
  exists r,
    Record_Type.constructor [ragged_properties] = Ok r
    /\ Record_Type.alignment r = Alignment.word
    /\ Layout.final_offset (Record_Type.fields r) = 5
    /\ Record_Type.size r = 5
    /\ Alignment.align (Layout.final_offset (Record_Type.fields r))
                       (Record_Type.alignment r) = 8
    /\ Record_Type.size r
       <> Alignment.align (Layout.final_offset (Record_Type.fields r))
                          (Record_Type.alignment r).
Proof. eexists. split; [reflexivity|]. by repeat split. Qed.

(** C2, amended.  Whenever the constructor of [Record.Type] returns, on
    declarations whose sizes are not negative and whose running offset ends
    below 2^53 (the range in which the numbers of the source are exact),
    [size] is the final running offset itself: the last field's offset plus
    its size, 0 without fields.  No padding is added at the end, so [size]
    is that offset rounded up to the type's alignment exactly when the
    offset already is a multiple of the alignment. *)
Theorem Record_Type_size (props : list Record_Type.Properties)
    (r : Record_Type.t) :
  Layout.nonneg_sizes (concat props) ->
  Layout.stop 0 (concat props) < 2 ^ 53 ->
  Record_Type.constructor props = Ok r ->
  Record_Type.size r = Layout.final_offset (Record_Type.fields r)
  /\ (Record_Type.size r
      = Alignment.align (Layout.final_offset (Record_Type.fields r))
                        (Record_Type.alignment r)
      <-> (Alignment.to_Z (Record_Type.alignment r)
           | Layout.final_offset (Record_Type.fields r))).
Proof.
  intros _ _ ->%constructor_Ok. simpl.
  assert (Layout.stop 0 (concat props)
          = Layout.final_offset (Layout.place 0 (concat props))) as ->.
  { apply stop_final_offset. }
  split; [done|]. split.
  - intros ->. apply Alignment_align_divide.
  - intros Hdiv. by rewrite Alignment_align_id.
Qed.

Lemma Record_Type_size_witness :
  Record_Type.constructor [SharedObject_properties]
  = Ok {| Record_Type.alignment := Alignment.word;
          Record_Type.size := 12;
          Record_Type.fields :=
            [("_size"%string, Record_Type.mkFieldInfo u32 0);
             ("_id"%string, Record_Type.mkFieldInfo u32 4);
             ("_lock"%string, Record_Type.mkFieldInfo Lock_Type 8)] |}
  /\ 12 = Layout.final_offset
            [("_size"%string, Record_Type.mkFieldInfo u32 0);
             ("_id"%string, Record_Type.mkFieldInfo u32 4);
             ("_lock"%string, Record_Type.mkFieldInfo Lock_Type 8)].
Proof.
  split; [reflexivity|].
  exact (proj1 (Record_Type_size [SharedObject_properties] _
                  ltac:(repeat constructor; simpl; lia) eq_refl eq_refl)).
Defined.

(** ** The arena *)

Section BufferFacts.
Context {A : Type}.
Implicit Types (l mid : list A) (n k i : nat).

(** Replacing the elements [n .. k - 1] of a list. *)
Lemma lookup_splice l mid n k i :
  (n + length mid = k)%nat -> (k <= length l)%nat ->
  (take n l ++ mid ++ drop k l) !! i
  = if decide (i < n)%nat then l !! i
    else if decide (i < k)%nat then mid !! (i - n)%nat
    else l !! i.
Proof.
  intros Hk Hlen.
  assert (length (take n l) = n) as Htake by (rewrite length_take; lia).
  destruct (decide (i < n)%nat) as [Hin|Hin].
  - rewrite lookup_app_l by lia. apply lookup_take_lt. lia.
  - rewrite lookup_app_r by lia. rewrite Htake.
    destruct (decide (i < k)%nat) as [Hik|Hik].
    + rewrite lookup_app_l by lia. done.
    + rewrite lookup_app_r by lia. rewrite lookup_drop. f_equal. lia.
Qed.

Lemma length_splice l mid n k :
  (n + length mid = k)%nat -> (k <= length l)%nat ->
  length (take n l ++ mid ++ drop k l) = length l.
Proof.
  intros Hk Hlen. rewrite !length_app, length_take, length_drop. lia.
Qed.
End BufferFacts.

Section FillFacts.
Implicit Types (view : Uint8Array.t) (buffer : list byte).

Lemma Uint8Array_new_Ok buffer byteOffset length :
  0 <= byteOffset -> 0 <= length -> byteOffset + length <= byteLength buffer ->
  Uint8Array.new buffer byteOffset length = Ok (Uint8Array.mk byteOffset length).
Proof.
  intros Hoff Hlen Hend. unfold Uint8Array.new.
  destruct (Z.ltb_spec byteOffset 0); [lia|].
  destruct (Z.ltb_spec length 0); [lia|].
  by destruct (Z.ltb_spec (byteLength buffer) (byteOffset + length)); [lia|].
Qed.

Lemma Uint8Array_fill_lookup view value buffer (i : nat) :
  0 <= Uint8Array.byteOffset view -> 0 <= Uint8Array.length view ->
  Uint8Array.byteOffset view + Uint8Array.length view <= byteLength buffer ->
  Uint8Array.fill view value buffer !! i
  = if decide (Uint8Array.byteOffset view <= Z.of_nat i
               < Uint8Array.byteOffset view + Uint8Array.length view)
    then Some value else buffer !! i.
Proof.
  destruct view as [off len]. unfold Uint8Array.fill, byteLength. simpl.
  intros Hoff Hlen Hend.
  rewrite (lookup_splice _ _ _ (Z.to_nat (off + len)))
    by (rewrite ?length_replicate; lia).
  destruct (decide (i < Z.to_nat off)%nat).
  { by rewrite decide_False by lia. }
  destruct (decide (i < Z.to_nat (off + len))%nat).
  - rewrite decide_True by lia. apply lookup_replicate_2. lia.
  - by rewrite decide_False by lia.
Qed.

Lemma Uint8Array_fill_length view value buffer :
  0 <= Uint8Array.byteOffset view -> 0 <= Uint8Array.length view ->
  Uint8Array.byteOffset view + Uint8Array.length view <= byteLength buffer ->
  length (Uint8Array.fill view value buffer) = length buffer.
Proof.
  destruct view as [off len]. unfold Uint8Array.fill, byteLength. simpl.
  intros Hoff Hlen Hend. apply length_splice; rewrite ?length_replicate; lia.
Qed.
End FillFacts.

(** C4, as stated, fails: an export that returns the non-null address 6
    for 4 bytes, in a memory of 8 bytes, makes [alloc] throw, after one log
    entry, where the claim has it return a range. *)
Lemma SharedMemory_alloc_block_outside :
  aligned_alloc (exports (arena 6)) (Alignment.to_Z Alignment.word) 4
    (buffer eight_bytes) = (Ok 6, buffer eight_bytes)
  /\ 6 <> 0
  /\ byteLength (buffer eight_bytes) < 6 + 4
  /\ exists e,
       SharedMemory.alloc (arena 6) Alignment.word 4 eight_bytes
       = (Throw e, mkState (buffer eight_bytes) [AllocFailed Alignment.word 4 8]).
Proof.
  split; [reflexivity|]. split; [discriminate|]. split; [reflexivity|].
  eexists. reflexivity.
Qed.

(** C4, amended.  Let the export [aligned_alloc], asked for [requested]
    bytes, return the address [p].  If [p] is the null address, [alloc]
    throws the allocation-failure error, after one log entry that carries
    the byte length of the buffer, and returns no range.  If [p] is not
    null and the block of [requested] bytes at [p] lies in the buffer,
    [alloc] returns the range with [ptr = p] and the requested size, logs
    nothing, and every byte of the range reads as zero, the bytes outside
    it being as the allocator left them.  If [p] is not null and the block
    ends after the end of the buffer, [alloc] throws, after one log entry
    that carries the byte length of the buffer, and returns no range. *)
Theorem SharedMemory_alloc (this : MemoryImpl) (align : Alignment.t)
    (requested : Z) (st : State) (p : Z) (bytes : list byte) :
  aligned_alloc (exports this) (Alignment.to_Z align) requested (buffer st)
  = (Ok p, bytes) ->
  (p = 0 ->
     SharedMemory.alloc this align requested st
     = (Throw (Error "Allocation failed"),
        mkState bytes
          (console st ++ [AllocFailed align requested (byteLength bytes)])))
  /\ (p <> 0 -> 0 <= p -> 0 <= requested -> p + requested <= byteLength bytes ->
      exists range st',
        SharedMemory.alloc this align requested st = (Ok range, st')
        /\ memory range = this /\ ptr range = p /\ size range = requested
        /\ console st' = console st
        /\ length (buffer st') = length bytes
        /\ (forall offset, 0 <= offset < requested ->
              Range.getUint8 range offset (buffer st') = Ok x00)
        /\ (forall i : nat, ~ (p <= Z.of_nat i < p + requested) ->
              buffer st' !! i = bytes !! i))
  /\ (p <> 0 -> byteLength bytes < p + requested ->
      exists e,
        SharedMemory.alloc this align requested st
        = (Throw e,
           mkState bytes
             (console st ++ [AllocFailed align requested (byteLength bytes)]))).
Proof.
  intros Hcall. unfold SharedMemory.alloc. rewrite Hcall. split; [|split].
  - by intros ->.
  - intros Hp Hp0 Hreq Hend.
    destruct (Z.eqb_spec p 0) as [?|_]; [done|].
    unfold Range.getUint8View. simpl.
    destruct (Z.ltb_spec requested 0); [lia|].
    rewrite Uint8Array_new_Ok by lia.
    eexists _, _. split; [reflexivity|]. simpl.
    repeat (split; [done|]).
    split; [apply Uint8Array_fill_length; simpl; lia|].
    split.
    + intros offset Hoffset. unfold Range.getUint8. simpl.
      destruct (Z.ltb_spec offset 0); [lia|].
      destruct (Z.ltb_spec requested (offset + 1)); [lia|]. simpl.
      rewrite Uint8Array_fill_lookup by (simpl; lia). simpl.
      by rewrite decide_True by lia.
    + intros i Hi. rewrite Uint8Array_fill_lookup by (simpl; lia). simpl.
      by rewrite decide_False by lia.
  - intros Hp Hout.
    destruct (Z.eqb_spec p 0) as [?|_]; [done|].
    unfold Range.getUint8View, Uint8Array.new. simpl.
    destruct (requested <? 0); simpl; [by eexists|].
    destruct (p + 0 <? 0); simpl; [by eexists|].
    destruct (requested - 0 <? 0); simpl; [by eexists|].
    destruct (Z.ltb_spec (byteLength bytes) (p + 0 + (requested - 0))); [|lia].
    by eexists.
Qed.

Lemma SharedMemory_alloc_witness :
  SharedMemory.alloc (arena 0) Alignment.word 4 eight_bytes
  = (Throw (Error "Allocation failed"),
     mkState (buffer eight_bytes) [AllocFailed Alignment.word 4 8])
  /\ exists range st',
       SharedMemory.alloc (arena 2) Alignment.halfWord 2 eight_bytes
       = (Ok range, st')
       /\ memory range = arena 2 /\ ptr range = 2 /\ size range = 2
       /\ console st' = console eight_bytes
       /\ length (buffer st') = length (buffer eight_bytes)
       /\ (forall offset, 0 <= offset < 2 ->
             Range.getUint8 range offset (buffer st') = Ok x00)
       /\ (forall i : nat, ~ (2 <= Z.of_nat i < 2 + 2) ->
             buffer st' !! i = buffer eight_bytes !! i).
Proof.
  split.
  - exact (proj1 (SharedMemory_alloc (arena 0) Alignment.word 4 eight_bytes 0
                    (buffer eight_bytes) eq_refl) eq_refl).
  - apply (proj1 (proj2 (SharedMemory_alloc (arena 2) Alignment.halfWord 2
                           eight_bytes 2 (buffer eight_bytes) eq_refl)));
      unfold byteLength; simpl; lia.
Defined.

(** An address whose block does not lie in the buffer makes [alloc] throw as
    well: the view that is to be zero-filled cannot be created. *)
Lemma SharedMemory_alloc_outside (this : MemoryImpl) (align : Alignment.t)
    (requested : Z) (st : State) (p : Z) (bytes : list byte) :
  aligned_alloc (exports this) (Alignment.to_Z align) requested (buffer st)
  = (Ok p, bytes) ->
  byteLength bytes < p + requested ->
  exists e, (SharedMemory.alloc this align requested st).1 = Throw e.
Proof.
  intros Hcall Hout. unfold SharedMemory.alloc. rewrite Hcall.
  destruct (p =? 0); [by eexists|].
  unfold Range.getUint8View, Uint8Array.new. simpl.
  destruct (requested <? 0); simpl; [by eexists|].
  destruct (p + 0 <? 0); simpl; [by eexists|].
  destruct (requested - 0 <? 0); simpl; [by eexists|].
  destruct (Z.ltb_spec (byteLength bytes) (p + 0 + (requested - 0))); [|lia].
  by eexists.
Qed.

(** C5, as stated, fails: with a source of four bytes and a destination of
    one byte, both inside the buffer, [copyWithin] also overwrites the three
    bytes that follow the destination. *)
Lemma SharedMemory_copyWithin_beyond_dest :
  ptr narrow_dest + size narrow_dest <= byteLength (buffer eight_bytes)
  /\ ptr wide_src + size wide_src <= byteLength (buffer eight_bytes)
  /\ buffer (SharedMemory.copyWithin (arena 0) narrow_dest wide_src eight_bytes)
     = [x01; x02; x03; x04; x01; x02; x03; x04]
  /\ ~ (ptr narrow_dest <= 5 < ptr narrow_dest + size narrow_dest)
  /\ buffer eight_bytes !! 5%nat = Some x00
  /\ buffer (SharedMemory.copyWithin (arena 0) narrow_dest wide_src eight_bytes)
       !! 5%nat = Some x02.
Proof.
  unfold byteLength. simpl. repeat split; try lia; reflexivity.
Qed.

Lemma Uint8Array_relative_index_id len i :
  0 <= i <= len -> Uint8Array.relative_index len i = i.
Proof.
  intros Hi. unfold Uint8Array.relative_index.
  destruct (Z.ltb_spec i 0); lia.
Qed.

(** C5, amended.  For a destination and a source that lie in the buffer,
    [copyWithin] copies the bytes of the source, as they were before the
    call, to [dest.ptr] and onwards, as many of them as fit before the end
    of the buffer, and changes no other byte; the size of the destination is
    not consulted.  Hence nothing outside the destination is changed
    whenever the number of bytes copied, the smaller of [src.size] and the
    distance from [dest.ptr] to the end of the buffer, is at most
    [dest.size]; in particular when the source is not larger than the
    destination, and then the whole source is copied. *)
Theorem SharedMemory_copyWithin (this : MemoryImpl) (dest : MemoryRange)
    (src : ReadonlyMemoryRange) (st : State) :
  0 <= ptr dest -> 0 <= size dest ->
  ptr dest + size dest <= byteLength (buffer st) ->
  0 <= ptr src -> 0 <= size src ->
  ptr src + size src <= byteLength (buffer st) ->
  length (buffer (SharedMemory.copyWithin this dest src st)) = length (buffer st)
  /\ console (SharedMemory.copyWithin this dest src st) = console st
  /\ (forall k,
        0 <= k < Z.min (size src) (byteLength (buffer st) - ptr dest) ->
        buffer (SharedMemory.copyWithin this dest src st) !! Z.to_nat (ptr dest + k)
        = buffer st !! Z.to_nat (ptr src + k))
  /\ (forall i : nat,
        ~ (ptr dest <= Z.of_nat i
           < ptr dest + Z.min (size src) (byteLength (buffer st) - ptr dest)) ->
        buffer (SharedMemory.copyWithin this dest src st) !! i = buffer st !! i)
  /\ (size src <= size dest ->
      Z.min (size src) (byteLength (buffer st) - ptr dest) = size src
      /\ forall i : nat,
           ~ (ptr dest <= Z.of_nat i < ptr dest + size dest) ->
           buffer (SharedMemory.copyWithin this dest src st) !! i = buffer st !! i)
  /\ (Z.min (size src) (byteLength (buffer st) - ptr dest) <= size dest ->
      forall i : nat,
        ~ (ptr dest <= Z.of_nat i < ptr dest + size dest) ->
        buffer (SharedMemory.copyWithin this dest src st) !! i = buffer st !! i).
Proof.
  intros Hd0 Hds Hdend Hs0 Hss Hsend.
  set (len := byteLength (buffer st)) in *.
  set (count := Z.min (size src) (len - ptr dest)).
  assert (forall i : nat,
            buffer (SharedMemory.copyWithin this dest src st) !! i
            = if decide (ptr dest <= Z.of_nat i < ptr dest + count)
              then buffer st !! Z.to_nat (ptr src + (Z.of_nat i - ptr dest))
              else buffer st !! i) as Hlookup.
  { intros i. unfold SharedMemory.copyWithin, Uint8Array.copyWithin. simpl.
    fold len. rewrite !Uint8Array_relative_index_id by lia.
    replace (ptr src + size src - ptr src) with (size src) by lia. fold count.
    destruct (Z.ltb_spec 0 count) as [Hpos|Hpos].
    - assert (length (take (Z.to_nat count) (drop (Z.to_nat (ptr src)) (buffer st)))
              = Z.to_nat count) as Hchunk.
      { rewrite length_take, length_drop. unfold len, byteLength in *. lia. }
      rewrite (lookup_splice _ _ _ (Z.to_nat (ptr dest + count)))
        by (rewrite ?Hchunk; unfold len, byteLength in *; lia).
      destruct (decide (i < Z.to_nat (ptr dest))%nat).
      { by rewrite decide_False by lia. }
      destruct (decide (i < Z.to_nat (ptr dest + count))%nat).
      + rewrite decide_True by lia.
        rewrite lookup_take_lt by lia. rewrite lookup_drop. f_equal. lia.
      + by rewrite decide_False by lia.
    - by rewrite decide_False by lia. }
  split.
  { unfold SharedMemory.copyWithin, Uint8Array.copyWithin. simpl.
    fold len. rewrite !Uint8Array_relative_index_id by lia.
    replace (ptr src + size src - ptr src) with (size src) by lia. fold count.
    destruct (Z.ltb_spec 0 count) as [Hpos|Hpos]; [|done].
    apply length_splice; rewrite ?length_take, ?length_drop;
      unfold len, byteLength in *; lia. }
  split; [done|].
  split.
  { intros k Hk. rewrite Hlookup, decide_True by lia. f_equal. lia. }
  split.
  { intros i Hi. by rewrite Hlookup, decide_False. }
  split.
  { intros Hfit. split; [lia|].
    intros i Hi. rewrite Hlookup, decide_False; [done|]. lia. }
  intros Hfit i Hi. rewrite Hlookup, decide_False; [done|]. lia.
Qed.

Lemma SharedMemory_copyWithin_witness :
  buffer (SharedMemory.copyWithin (arena 0) (Range.new (arena 0) 4 4 true)
            wide_src eight_bytes) !! Z.to_nat (4 + 1)
  = buffer eight_bytes !! Z.to_nat (0 + 1).
Proof.
  apply (SharedMemory_copyWithin (arena 0) (Range.new (arena 0) 4 4 true)
           wide_src eight_bytes);
    unfold byteLength; simpl; lia.
Defined.

(** ** Memory locations *)

(** C6.  For a range over the memory [m] that lies in the buffer, resolving
    against [m] the location made from the range returns a range over [m]
    with the same [ptr] and the same [size]. *)
Theorem MemoryLocation_round_trip (m : MemoryImpl) (range : MemoryRange)
    (st : State) :
  memory range = m ->
  ptr range + size range <= byteLength (buffer st) ->
  exists resolved,
    MemoryLocation.to m (MemoryLocation.from range) st = Ok resolved
    /\ memory resolved = m
    /\ ptr resolved = ptr range
    /\ size resolved = size range.
Proof.
  destruct range as [[mem p n] allocated]. simpl. intros -> Hin.
  unfold MemoryLocation.to, SharedMemory.preAllocated. simpl.
  rewrite String.eqb_refl. simpl.
  destruct (Z.ltb_spec (byteLength (buffer st)) (p + n)); [lia|].
  by eexists.
Qed.

Lemma MemoryLocation_round_trip_witness :
  exists resolved,
    MemoryLocation.to (arena 0) (MemoryLocation.from narrow_dest) eight_bytes
    = Ok resolved
    /\ memory resolved = arena 0
    /\ ptr resolved = ptr narrow_dest
    /\ size resolved = size narrow_dest.
Proof.
  apply (MemoryLocation_round_trip (arena 0) narrow_dest eight_bytes);
    [reflexivity | unfold byteLength; simpl; lia].
Defined.

(** C7.  Resolving a location against a memory with another id throws the
    location-mismatch error; no range is returned. *)
Theorem MemoryLocation_to_mismatch (m : MemoryImpl) (loc : MemoryLocation.t)
    (st : State) :
  MemoryLocation.memory_id loc <> id m ->
  MemoryLocation.to m loc st
  = Throw (MemoryError "Memory location does not match").
Proof.
  intros Hne. unfold MemoryLocation.to.
  destruct (String.eqb_spec (id m) (MemoryLocation.memory_id loc)); [|done].
  congruence.
Qed.

Lemma MemoryLocation_to_mismatch_witness :
  MemoryLocation.to other_arena (MemoryLocation.from narrow_dest) eight_bytes
  = Throw (MemoryError "Memory location does not match").
Proof.
  apply (MemoryLocation_to_mismatch other_arena
           (MemoryLocation.from narrow_dest) eight_bytes).
  simpl. discriminate.
Defined.

(** C9.  Resolving a location whose id is that of the memory, but whose
    [ptr + size] exceeds the byte length of the buffer, throws the
    out-of-bounds error of [preAllocated]. *)
Theorem MemoryLocation_to_out_of_bounds (m : MemoryImpl)
    (loc : MemoryLocation.t) (st : State) :
  MemoryLocation.memory_id loc = id m ->
  byteLength (buffer st) < MemoryLocation.ptr loc + MemoryLocation.size loc ->
  MemoryLocation.to m loc st
  = Throw (MemoryError "Memory access is out of bounds")
  /\ SharedMemory.preAllocated m (MemoryLocation.ptr loc) (MemoryLocation.size loc) st
     = Throw (MemoryError "Memory access is out of bounds").
Proof.
  intros Hid Hout. unfold MemoryLocation.to, SharedMemory.preAllocated.
  rewrite <- Hid, String.eqb_refl. simpl.
  by destruct (Z.ltb_spec (byteLength (buffer st))
                 (MemoryLocation.ptr loc + MemoryLocation.size loc)); [|lia].
Qed.

Lemma MemoryLocation_to_out_of_bounds_witness :
  MemoryLocation.to (arena 0) (MemoryLocation.mk "arena" 6 4) eight_bytes
  = Throw (MemoryError "Memory access is out of bounds").
Proof.
  apply (MemoryLocation_to_out_of_bounds (arena 0)
           (MemoryLocation.mk "arena" 6 4) eight_bytes);
    [reflexivity | unfold byteLength; simpl; lia].
Defined.

(** ** Signal *)

Section AtomicsFacts.
Import Atomics.

Lemma ToInt32_int32 x : int32 (ToInt32 x).
Proof.
  unfold int32, ToInt32.
  pose proof (Z.mod_pos_bound (x + 2 ^ 31) (2 ^ 32) ltac:(lia)). lia.
Qed.

Lemma ToInt32_id v : int32 v -> ToInt32 v = v.
Proof.
  unfold int32, ToInt32. intros Hv. rewrite Z.mod_small by lia. lia.
Qed.
End AtomicsFacts.

(** C8.  [resolve] stores 1 into the element.  [isResolved] leaves the
    element and its waiters as they are, and returns [true] exactly when the
    element is 1: [false] on a signal that has just been created, [true]
    after a [resolve].  After a second [resolve] the element still is 1. *)
Theorem Signal_resolve_isResolved (c : Atomics.Cell)
    (agentsToNotify agentsToNotify' : option Z) :
  Atomics.value (Signal.resolve agentsToNotify c).2 = 1
  /\ (Signal.isResolved c).2 = c
  /\ ((Signal.isResolved c).1 = true <-> Atomics.value c = 1)
  /\ Atomics.value (Signal.new true c) = 0
  /\ (Signal.isResolved (Signal.new true c)).1 = false
  /\ (Signal.isResolved (Signal.resolve agentsToNotify c).2).1 = true
  /\ Atomics.value
       (Signal.resolve agentsToNotify' (Signal.resolve agentsToNotify c).2).2 = 1
  /\ (Signal.isResolved
        (Signal.resolve agentsToNotify' (Signal.resolve agentsToNotify c).2).2).1
     = true.
Proof.
  unfold Signal.resolve, Signal.isResolved, Signal.new. simpl.
  repeat split; try reflexivity.
  - by intros ?%Z.eqb_eq.
  - by intros ->.
Qed.

(** ** Lock *)

Section LockInvariant.
Import Atomics Lock.

Lemma wf_new initialise c n :
  int32 (value c) ->
  wf (mkSystem (Lock.new initialise c).2 (replicate n (Lock.new initialise c).1)).
Proof.
  intros Hc. split; simpl.
  - destruct initialise; [apply ToInt32_int32|done].
  - by apply Forall_replicate.
Qed.

Lemma wf_resumed (l : list Lock.t) woken :
  Forall wf_control l ->
  Forall wf_control (foldr (fun j l => alter resume j l) l woken).
Proof.
  intros Hl. induction woken as [|j woken IH]; simpl; [done|].
  apply Forall_alter; [done|]. intros this _ Hthis.
  unfold resume. by destruct (control this).
Qed.

(** Every step of every agent keeps the system well formed. *)
Lemma exec_wf a s s' : wf s -> exec a s = Some s' -> wf s'.
Proof.
  intros [Hcell Hagents] Hexec. destruct a as [i|i|i]; simpl in Hexec.
  - destruct (agents s !! i) as [this|] eqn:Hthis; [|done]. simpl in Hexec.
    unfold call_acquire in Hexec.
    destruct (control this); try done.
    destruct (0 <? lockCount this); injection Hexec as <-;
      (split; [done|]); by apply Forall_insert.
  - destruct (agents s !! i) as [this|] eqn:Hthis; [|done]. simpl in Hexec.
    unfold call_release in Hexec.
    destruct (control this); try done.
    destruct (1 <? lockCount this); injection Hexec as <-;
      (split; [done|]); by apply Forall_insert.
  - destruct (agents s !! i) as [this|] eqn:Hthis; [|done]. simpl in Hexec.
    assert (wf_control this) as Hctl.
    { rewrite Forall_lookup in Hagents. by eapply Hagents. }
    unfold step, wf_control in *.
    destruct (control this) as [| |v|v| | |] eqn:Hcontrol; simpl in Hexec;
      try done.
    + injection Hexec as <-. split; [done|]. by apply Forall_insert.
    + destruct (0 <? v) eqn:Hv; simpl in Hexec.
      * destruct (value (cell s) =? v) eqn:Hold; simpl in Hexec;
          injection Hexec as <-; simpl.
        -- split; [|by apply Forall_insert].
           destruct (_ =? ToInt32 v); [apply ToInt32_int32|done].
        -- split; [|by apply Forall_insert].
           destruct (_ =? ToInt32 v); [apply ToInt32_int32|done].
      * injection Hexec as <-. split; [done|]. by apply Forall_insert.
    + unfold Atomics.wait in Hexec.
      destruct (value (cell s) =? ToInt32 v); simpl in Hexec;
        injection Hexec as <-; (split; [done|]); by apply Forall_insert.
    + injection Hexec as <-. split; [apply ToInt32_int32|].
      by apply Forall_insert.
    + injection Hexec as <-. split; [done|].
      apply wf_resumed. by apply Forall_insert.
Qed.

Lemma run_wf schedule : forall s s', wf s -> run schedule s = Some s' -> wf s'.
Proof.
  induction schedule as [|a schedule IH]; intros s s' Hwf; simpl.
  - by intros [= <-].
  - destruct (exec a s) as [s1|] eqn:Hexec; [|done]. simpl.
    apply IH. by eapply exec_wf.
Qed.

(** Waking agents changes no agent that is not suspended. *)
Lemma lookup_resumed (l : list Lock.t) woken i this :
  l !! i = Some this -> control this <> acquire_suspended ->
  foldr (fun j l => alter resume j l) l woken !! i = Some this.
Proof.
  intros Hi Hctl. induction woken as [|j woken IH]; simpl; [done|].
  rewrite list_lookup_alter. destruct (decide (j = i)) as [->|]; [|done].
  rewrite IH. simpl. f_equal. unfold resume.
  destruct (control this); done.
Qed.
End LockInvariant.

(** Runs one action of the agent whose lock object and control state are
    known from [Hthis] and [Hctl]. *)
Ltac exec_at Hthis Hctl :=
  simpl; rewrite Hthis; simpl;
  unfold Lock.call_acquire, Lock.call_release, Lock.step, Atomics.wait;
  rewrite Hctl; simpl.

(** The value an agent has loaded is a 32-bit value. *)
Ltac loaded_int32 Hwf_this Hctl v :=
  let Hv := fresh "Hv" in
  pose proof Hwf_this as Hv; unfold Lock.wf_control in Hv; rewrite Hctl in Hv;
  rewrite (ToInt32_id v Hv).

Section LockSteps.
Import Atomics Lock.
Variables (s : System) (i : nat) (this : Lock.t).
Hypothesis Hwf : wf s.
Hypothesis Hthis : agents s !! i = Some this.

Lemma wf_this : wf_control this.
Proof.
  destruct Hwf as [_ Hagents]. rewrite Forall_lookup in Hagents.
  by eapply Hagents.
Qed.

Lemma acquire_held :
  control this = idle -> 0 < lockCount this ->
  exec (Acquire i) s
  = Some (mkSystem (cell s) (<[i := mk (lockCount this + 1) idle]> (agents s))).
Proof.
  intros Hctl Hheld. exec_at Hthis Hctl.
  by destruct (Z.ltb_spec 0 (lockCount this)); [|lia].
Qed.

Lemma acquire_free :
  control this = idle -> lockCount this <= 0 ->
  exec (Acquire i) s
  = Some (mkSystem (cell s) (<[i := mk (lockCount this) acquire_load]> (agents s))).
Proof.
  intros Hctl Hfree. exec_at Hthis Hctl.
  by destruct (Z.ltb_spec 0 (lockCount this)); [lia|].
Qed.

Lemma tick_acquire_load :
  control this = acquire_load ->
  exec (Tick i) s
  = Some (mkSystem (cell s)
            (<[i := mk (lockCount this) (acquire_exchange (value (cell s)))]>
               (agents s))).
Proof.
  intros Hctl. by exec_at Hthis Hctl.
Qed.

Lemma tick_acquire_exchange_success v :
  control this = acquire_exchange v -> 0 < v -> value (cell s) = v ->
  exec (Tick i) s
  = Some (mkSystem (mkCell (v - 1) (waiters (cell s)))
            (<[i := mk 1 idle]> (agents s))).
Proof.
  intros Hctl Hpos Hcell. exec_at Hthis Hctl.
  destruct (Z.ltb_spec 0 v); [|lia].
  loaded_int32 wf_this Hctl v. rewrite Hcell, Z.eqb_refl. simpl.
  rewrite ToInt32_id; [done|]. unfold int32 in *. lia.
Qed.

Lemma tick_acquire_exchange_failure v :
  control this = acquire_exchange v -> ~ (0 < v /\ value (cell s) = v) ->
  exec (Tick i) s
  = Some (mkSystem (cell s)
            (<[i := mk (lockCount this) (acquire_wait v)]> (agents s))).
Proof.
  intros Hctl Hfail. exec_at Hthis Hctl.
  destruct (Z.ltb_spec 0 v); [|done].
  loaded_int32 wf_this Hctl v.
  destruct (Z.eqb_spec (value (cell s)) v); [lia|]. simpl.
  by destruct (cell s).
Qed.

Lemma tick_acquire_wait_suspend v :
  control this = acquire_wait v -> value (cell s) = v ->
  exec (Tick i) s
  = Some (mkSystem (mkCell (value (cell s)) (waiters (cell s) ++ [i]))
            (<[i := mk (lockCount this) acquire_suspended]> (agents s))).
Proof.
  intros Hctl Hcell. exec_at Hthis Hctl. loaded_int32 wf_this Hctl v.
  by destruct (Z.eqb_spec (value (cell s)) v).
Qed.

Lemma tick_acquire_wait_retry v :
  control this = acquire_wait v -> value (cell s) <> v ->
  exec (Tick i) s
  = Some (mkSystem (cell s)
            (<[i := mk (lockCount this) acquire_load]> (agents s))).
Proof.
  intros Hctl Hcell. exec_at Hthis Hctl. loaded_int32 wf_this Hctl v.
  by destruct (Z.eqb_spec (value (cell s)) v).
Qed.

Lemma release_held :
  control this = idle -> 1 < lockCount this ->
  exec (Release i) s
  = Some (mkSystem (cell s) (<[i := mk (lockCount this - 1) idle]> (agents s))).
Proof.
  intros Hctl Hheld. exec_at Hthis Hctl.
  by destruct (Z.ltb_spec 1 (lockCount this)); [|lia].
Qed.

Lemma release_last :
  control this = idle -> lockCount this <= 1 ->
  exec (Release i) s
  = Some (mkSystem (cell s) (<[i := mk (lockCount this) release_add]> (agents s))).
Proof.
  intros Hctl Hlast. exec_at Hthis Hctl.
  by destruct (Z.ltb_spec 1 (lockCount this)); [lia|].
Qed.

Lemma tick_release_add :
  control this = release_add ->
  exec (Tick i) s
  = Some (mkSystem (mkCell (ToInt32 (value (cell s) + 1)) (waiters (cell s)))
            (<[i := mk (lockCount this) release_notify]> (agents s))).
Proof.
  intros Hctl. by exec_at Hthis Hctl.
Qed.

Lemma tick_release_notify :
  control this = release_notify ->
  exec (Tick i) s
  = Some (mkSystem (mkCell (value (cell s)) (drop 1 (waiters (cell s))))
            (foldr (fun j l => alter resume j l)
               (<[i := mk 0 idle]> (agents s))
               (take 1 (waiters (cell s))))).
Proof.
  intros Hctl. by exec_at Hthis Hctl.
Qed.
End LockSteps.

Section LockCalls.
Import Atomics Lock.

(** A whole [release()] of the last level, run without interruption. *)
Lemma run_release_last s i this :
  agents s !! i = Some this -> control this = idle -> lockCount this <= 1 ->
  run [Release i; Tick i; Tick i] s
  = Some (mkSystem
            (mkCell (ToInt32 (value (cell s) + 1)) (drop 1 (waiters (cell s))))
            (foldr (fun j l => alter resume j l)
               (<[i := mk 0 idle]> (agents s))
               (take 1 (waiters (cell s))))).
Proof.
  intros Hthis Hctl Hlast.
  pose proof (lookup_lt_Some _ _ _ Hthis) as Hi.
  unfold run. rewrite (release_last s i this Hthis Hctl Hlast). simpl option_bind.
  cbn [mbind option_bind].
  erewrite tick_release_add;
    [|simpl; by apply list_lookup_insert_eq|done].
  cbn [mbind option_bind].
  erewrite tick_release_notify;
    [|simpl; apply list_lookup_insert_eq; by rewrite length_insert|done].
  simpl. by rewrite !list_insert_insert_eq.
Qed.

(** A whole [acquire()] by an agent that does not hold the lock, run
    without interruption on an element above 0. *)
Lemma run_acquire_free s i this :
  wf s ->
  agents s !! i = Some this -> control this = idle -> lockCount this <= 0 ->
  0 < value (cell s) ->
  run [Acquire i; Tick i; Tick i] s
  = Some (mkSystem (mkCell (value (cell s) - 1) (waiters (cell s)))
            (<[i := mk 1 idle]> (agents s))).
Proof.
  intros Hwf Hthis Hctl Hfree Hpos.
  pose proof (lookup_lt_Some _ _ _ Hthis) as Hi.
  pose proof (acquire_free s i this Hthis Hctl Hfree) as Hcall.
  pose proof (exec_wf _ _ _ Hwf Hcall) as Hwf1.
  unfold run. rewrite Hcall. cbn [mbind option_bind].
  match goal with |- context [exec (Tick i) ?s1] =>
    pose proof (tick_acquire_load s1 i (mk (lockCount this) acquire_load)
                  ltac:(simpl; by apply list_lookup_insert_eq) eq_refl) as Hload
  end.
  pose proof (exec_wf _ _ _ Hwf1 Hload) as Hwf2.
  rewrite Hload. cbn [mbind option_bind].
  erewrite tick_acquire_exchange_success;
    [|done|simpl; apply list_lookup_insert_eq; by rewrite length_insert
     |done|done|done].
  simpl. by rewrite !list_insert_insert_eq.
Qed.
End LockCalls.

Section LockClaims.
Import Atomics Lock.

Lemma run_app schedule schedule' s :
  run (schedule ++ schedule') s = run schedule s ≫= run schedule'.
Proof.
  revert s. induction schedule as [|a schedule IH]; intros s; simpl; [done|].
  destruct (exec a s) as [s1|]; simpl; [apply IH|done].
Qed.

(** Every change of the element's value, whoever makes it: the addition of
    [release], or the exchange of [acquire] from a value above 0 that the
    agent has loaded and that the element still holds. *)
Lemma exec_cell a s s' :
  wf s -> exec a s = Some s' ->
  value (cell s') = value (cell s)
  \/ (exists i this,
        a = Tick i /\ agents s !! i = Some this /\ control this = release_add
        /\ value (cell s') = ToInt32 (value (cell s) + 1))
  \/ (exists i this,
        a = Tick i /\ agents s !! i = Some this
        /\ control this = acquire_exchange (value (cell s))
        /\ 0 < value (cell s)
        /\ value (cell s') = value (cell s) - 1
        /\ agents s' !! i = Some (mk 1 idle)).
Proof.
  intros Hwf Hexec. destruct a as [i|i|i].
  - left. simpl in Hexec.
    destruct (agents s !! i) as [this|]; [|done]. simpl in Hexec.
    destruct (call_acquire this); [|done]. by injection Hexec as <-.
  - left. simpl in Hexec.
    destruct (agents s !! i) as [this|]; [|done]. simpl in Hexec.
    destruct (call_release this); [|done]. by injection Hexec as <-.
  - destruct (agents s !! i) as [this|] eqn:Hthis;
      [|by simpl in Hexec; rewrite Hthis in Hexec].
    pose proof (lookup_lt_Some _ _ _ Hthis) as Hi.
    destruct (control this) as [| |v|v| | |] eqn:Hctl.
    + simpl in Hexec. rewrite Hthis in Hexec. simpl in Hexec.
      unfold step in Hexec. by rewrite Hctl in Hexec.
    + rewrite (tick_acquire_load s i this Hthis Hctl) in Hexec.
      left. by injection Hexec as <-.
    + destruct (decide (0 < v /\ value (cell s) = v)) as [[Hpos Hcell]|Hfail].
      * rewrite (tick_acquire_exchange_success s i this Hwf Hthis v Hctl Hpos Hcell)
          in Hexec.
        right. right. exists i, this. injection Hexec as <-. simpl. subst v.
        repeat split; try done. by apply list_lookup_insert_eq.
      * rewrite (tick_acquire_exchange_failure s i this Hwf Hthis v Hctl Hfail)
          in Hexec.
        left. by injection Hexec as <-.
    + destruct (decide (value (cell s) = v)) as [Hcell|Hcell].
      * rewrite (tick_acquire_wait_suspend s i this Hwf Hthis v Hctl Hcell) in Hexec.
        left. by injection Hexec as <-.
      * rewrite (tick_acquire_wait_retry s i this Hwf Hthis v Hctl Hcell) in Hexec.
        left. by injection Hexec as <-.
    + simpl in Hexec. rewrite Hthis in Hexec. simpl in Hexec.
      unfold step in Hexec. by rewrite Hctl in Hexec.
    + rewrite (tick_release_add s i this Hthis Hctl) in Hexec.
      right. left. exists i, this. by injection Hexec as <-.
    + rewrite (tick_release_notify s i this Hthis Hctl) in Hexec.
      left. by injection Hexec as <-.
Qed.

(** In particular no step of [acquire] takes the element below 0. *)
Lemma exec_acquire_nonneg a s s' :
  wf s -> exec a s = Some s' ->
  0 <= value (cell s) -> value (cell s) < 2 ^ 31 - 1 ->
  0 <= value (cell s').
Proof.
  intros Hwf Hexec Hnonneg Hmax.
  destruct (exec_cell a s s' Hwf Hexec)
    as [->|[(i & this & _ & _ & _ & ->)|(i & this & _ & _ & _ & Hpos & -> & _)]];
    [done| |lia].
  rewrite ToInt32_id; [lia|]. unfold int32. lia.
Qed.

Lemma wf_fresh_lock : wf fresh_lock.
Proof.
  split; [vm_compute; split; [discriminate | reflexivity]
         | repeat constructor].
Defined.

Lemma wf_held_lock : wf held_lock.
Proof.
  split; [vm_compute; split; [discriminate | reflexivity]
         | repeat constructor].
Defined.
End LockClaims.

(** C3.  Let [this] be the lock object of agent [i] in a running system.
    - [acquire()] while the agent holds the lock ([lockCount > 0]) returns at
      once with the local counter incremented; the shared element and all
      other agents are as before.
    - [release()] with a local counter above 1 returns at once with the
      local counter decremented; the shared element is as before.
    - [release()] with local counter 1 adds 1 to the element, in one
      operation and in 32-bit arithmetic (so exactly 1 below the greatest
      32-bit value), then wakes the first waiter if there is one, and leaves
      the local counter at 0.
    - [acquire()] without holding the lock loads the element; only if the
      value loaded is above 0 and still is the value of the element does the
      exchange step replace it by that value less 1 and end the call with
      local counter 1; every other step of [acquire()] leaves the value of
      the element as it is. *)
Theorem Lock_acquire_release (s : Lock.System) (i : nat) (this : Lock.t) :
  Lock.wf s ->
  Lock.agents s !! i = Some this ->
  (Lock.control this = Lock.idle -> 0 < Lock.lockCount this ->
     Lock.exec (Lock.Acquire i) s
     = Some (Lock.mkSystem (Lock.cell s)
               (<[i := Lock.mk (Lock.lockCount this + 1) Lock.idle]> (Lock.agents s))))
  /\ (Lock.control this = Lock.idle -> 1 < Lock.lockCount this ->
     Lock.exec (Lock.Release i) s
     = Some (Lock.mkSystem (Lock.cell s)
               (<[i := Lock.mk (Lock.lockCount this - 1) Lock.idle]> (Lock.agents s))))
  /\ (Lock.control this = Lock.idle -> Lock.lockCount this = 1 ->
     Lock.run [Lock.Release i; Lock.Tick i; Lock.Tick i] s
     = Some (Lock.mkSystem
               (Atomics.mkCell
                  (Atomics.ToInt32 (Atomics.value (Lock.cell s) + 1))
                  (drop 1 (Atomics.waiters (Lock.cell s))))
               (foldr (fun j l => alter Lock.resume j l)
                  (<[i := Lock.mk 0 Lock.idle]> (Lock.agents s))
                  (take 1 (Atomics.waiters (Lock.cell s)))))
     /\ (Atomics.value (Lock.cell s) < 2 ^ 31 - 1 ->
         Atomics.ToInt32 (Atomics.value (Lock.cell s) + 1)
         = Atomics.value (Lock.cell s) + 1))
  /\ (Lock.control this = Lock.release_add ->
     Lock.exec (Lock.Tick i) s
     = Some (Lock.mkSystem
               (Atomics.mkCell
                  (Atomics.ToInt32 (Atomics.value (Lock.cell s) + 1))
                  (Atomics.waiters (Lock.cell s)))
               (<[i := Lock.mk (Lock.lockCount this) Lock.release_notify]>
                  (Lock.agents s))))
  /\ (Lock.control this = Lock.release_notify ->
     Lock.exec (Lock.Tick i) s
     = Some (Lock.mkSystem
               (Atomics.mkCell (Atomics.value (Lock.cell s))
                  (drop 1 (Atomics.waiters (Lock.cell s))))
               (foldr (fun j l => alter Lock.resume j l)
                  (<[i := Lock.mk 0 Lock.idle]> (Lock.agents s))
                  (take 1 (Atomics.waiters (Lock.cell s))))))
  /\ (Lock.control this = Lock.idle -> Lock.lockCount this <= 0 ->
     Lock.exec (Lock.Acquire i) s
     = Some (Lock.mkSystem (Lock.cell s)
               (<[i := Lock.mk (Lock.lockCount this) Lock.acquire_load]>
                  (Lock.agents s))))
  /\ (Lock.control this = Lock.acquire_load ->
     Lock.exec (Lock.Tick i) s
     = Some (Lock.mkSystem (Lock.cell s)
               (<[i := Lock.mk (Lock.lockCount this)
                         (Lock.acquire_exchange (Atomics.value (Lock.cell s)))]>
                  (Lock.agents s))))
  /\ (forall v, Lock.control this = Lock.acquire_exchange v ->
       (0 < v /\ Atomics.value (Lock.cell s) = v ->
          Lock.exec (Lock.Tick i) s
          = Some (Lock.mkSystem
                    (Atomics.mkCell (v - 1) (Atomics.waiters (Lock.cell s)))
                    (<[i := Lock.mk 1 Lock.idle]> (Lock.agents s))))
       /\ (~ (0 < v /\ Atomics.value (Lock.cell s) = v) ->
           Lock.exec (Lock.Tick i) s
           = Some (Lock.mkSystem (Lock.cell s)
                     (<[i := Lock.mk (Lock.lockCount this) (Lock.acquire_wait v)]>
                        (Lock.agents s)))))
  /\ (forall v, Lock.control this = Lock.acquire_wait v ->
       (Atomics.value (Lock.cell s) = v ->
          Lock.exec (Lock.Tick i) s
          = Some (Lock.mkSystem
                    (Atomics.mkCell (Atomics.value (Lock.cell s))
                       (Atomics.waiters (Lock.cell s) ++ [i]))
                    (<[i := Lock.mk (Lock.lockCount this) Lock.acquire_suspended]>
                       (Lock.agents s))))
       /\ (Atomics.value (Lock.cell s) <> v ->
           Lock.exec (Lock.Tick i) s
           = Some (Lock.mkSystem (Lock.cell s)
                     (<[i := Lock.mk (Lock.lockCount this) Lock.acquire_load]>
                        (Lock.agents s)))))
  /\ (Lock.control this = Lock.idle -> Lock.lockCount this <= 0 ->
     0 < Atomics.value (Lock.cell s) ->
     Lock.run [Lock.Acquire i; Lock.Tick i; Lock.Tick i] s
     = Some (Lock.mkSystem
               (Atomics.mkCell (Atomics.value (Lock.cell s) - 1)
                  (Atomics.waiters (Lock.cell s)))
               (<[i := Lock.mk 1 Lock.idle]> (Lock.agents s)))).
Proof.
  intros Hwf Hthis.
  split; [by apply acquire_held|].
  split; [by apply release_held|].
  split.
  { intros Hctl Hcount. split.
    - eapply run_release_last; [done|done|lia].
    - intros Hmax. apply ToInt32_id. destruct Hwf as [Hcell _].
      unfold Atomics.int32 in *. lia. }
  split; [by apply tick_release_add|].
  split; [by apply tick_release_notify|].
  split; [by apply acquire_free|].
  split; [by apply tick_acquire_load|].
  split.
  { intros v Hctl. split.
    - intros [Hpos Hcell]. by eapply tick_acquire_exchange_success.
    - intros Hfail. by eapply tick_acquire_exchange_failure. }
  split.
  { intros v Hctl. split.
    - intros Hcell. by eapply tick_acquire_wait_suspend.
    - intros Hcell. by eapply tick_acquire_wait_retry. }
  intros Hctl Hfree Hpos. by eapply run_acquire_free.
Qed.

Lemma Lock_acquire_release_witness :
  Lock.exec (Lock.Acquire 0%nat) held_lock
  = Some (Lock.mkSystem (Lock.cell held_lock)
            (<[0%nat := Lock.mk (2 + 1) Lock.idle]> (Lock.agents held_lock)))
  /\ Lock.exec (Lock.Release 0%nat) held_lock
     = Some (Lock.mkSystem (Lock.cell held_lock)
               (<[0%nat := Lock.mk (2 - 1) Lock.idle]> (Lock.agents held_lock))).
Proof.
  pose proof (Lock_acquire_release held_lock 0%nat (Lock.mk 2 Lock.idle)
                wf_held_lock eq_refl) as (Hacquire & Hrelease & _).
  split.
  - apply Hacquire; [reflexivity | simpl; lia].
  - apply Hrelease; [reflexivity | simpl; lia].
Defined.

(** C10.  Let agents [i] and [j] both be outside any call and not hold the
    lock (local counters 0).  A [release()] by [i] then runs to its end
    without an error: it adds 1 to the shared element, in 32-bit arithmetic,
    wakes the first waiter if there is one, and leaves the local counter at
    0.  If the element had its initial value 1, it now is 2, and from there
    an [acquire()] by [i] followed by an [acquire()] by [j], neither of
    them reentrant, both return: both agents hold the lock at once. *)
Theorem Lock_unmatched_release (s : Lock.System) (i j : nat) :
  Lock.wf s ->
  Lock.agents s !! i = Some (Lock.mk 0 Lock.idle) ->
  Lock.agents s !! j = Some (Lock.mk 0 Lock.idle) ->
  i <> j ->
  exists s1,
    Lock.run [Lock.Release i; Lock.Tick i; Lock.Tick i] s = Some s1
    /\ Atomics.value (Lock.cell s1)
       = Atomics.ToInt32 (Atomics.value (Lock.cell s) + 1)
    /\ Atomics.waiters (Lock.cell s1) = drop 1 (Atomics.waiters (Lock.cell s))
    /\ Lock.agents s1 !! i = Some (Lock.mk 0 Lock.idle)
    /\ Lock.agents s1 !! j = Some (Lock.mk 0 Lock.idle)
    /\ (Atomics.value (Lock.cell s) = 1 ->
        Atomics.value (Lock.cell s1) = 2
        /\ exists s2,
             Lock.run [Lock.Acquire i; Lock.Tick i; Lock.Tick i;
                       Lock.Acquire j; Lock.Tick j; Lock.Tick j] s1 = Some s2
             /\ Lock.agents s2 !! i = Some (Lock.mk 1 Lock.idle)
             /\ Lock.agents s2 !! j = Some (Lock.mk 1 Lock.idle)
             /\ Atomics.value (Lock.cell s2) = 0).
Proof.
  intros Hwf Hi Hj Hij.
  pose proof (lookup_lt_Some _ _ _ Hi) as Hilen.
  pose proof (lookup_lt_Some _ _ _ Hj) as Hjlen.
  pose proof (run_release_last s i _ Hi eq_refl ltac:(simpl; lia)) as Hrelease.
  eexists. split; [exact Hrelease|].
  pose proof (run_wf _ _ _ Hwf Hrelease) as Hwf1.
  simpl Lock.cell. simpl Lock.agents. simpl Atomics.value. simpl Atomics.waiters.
  split; [done|]. split; [done|].
  assert (foldr (fun k l => alter Lock.resume k l)
            (<[i := Lock.mk 0 Lock.idle]> (Lock.agents s))
            (take 1 (Atomics.waiters (Lock.cell s))) !! i
          = Some (Lock.mk 0 Lock.idle)) as Hi1.
  { apply lookup_resumed; [by apply list_lookup_insert_eq|done]. }
  assert (foldr (fun k l => alter Lock.resume k l)
            (<[i := Lock.mk 0 Lock.idle]> (Lock.agents s))
            (take 1 (Atomics.waiters (Lock.cell s))) !! j
          = Some (Lock.mk 0 Lock.idle)) as Hj1.
  { apply lookup_resumed; [by rewrite list_lookup_insert_ne|done]. }
  split; [done|]. split; [done|].
  intros Hone. split; [by rewrite Hone|].
  match type of Hwf1 with Lock.wf ?x => set (s1 := x) in * end.
  assert (Atomics.value (Lock.cell s1) = 2) as Hcell1.
  { subst s1. simpl. by rewrite Hone. }
  pose proof (run_acquire_free s1 i _ Hwf1 Hi1 eq_refl ltac:(simpl; lia)
                ltac:(lia)) as Hacquire.
  pose proof (run_wf _ _ _ Hwf1 Hacquire) as Hwf2.
  match type of Hwf2 with Lock.wf ?x => set (s2 := x) in * end.
  assert (Lock.agents s2 !! j = Some (Lock.mk 0 Lock.idle)) as Hj2.
  { subst s2. simpl. by rewrite list_lookup_insert_ne. }
  assert (Atomics.value (Lock.cell s2) = 1) as Hcell2.
  { change (Atomics.value (Lock.cell s1) - 1 = 1). lia. }
  pose proof (run_acquire_free s2 j _ Hwf2 Hj2 eq_refl ltac:(simpl; lia)
                ltac:(lia)) as Hacquire'.
  eexists. split.
  { change [Lock.Acquire i; Lock.Tick i; Lock.Tick i;
            Lock.Acquire j; Lock.Tick j; Lock.Tick j]
      with ([Lock.Acquire i; Lock.Tick i; Lock.Tick i]
            ++ [Lock.Acquire j; Lock.Tick j; Lock.Tick j]).
    rewrite run_app, Hacquire. exact Hacquire'. }
  simpl Lock.agents. simpl Lock.cell. simpl Atomics.value.
  split.
  { rewrite list_lookup_insert_ne by done. subst s2. simpl.
    apply list_lookup_insert_eq. by eapply lookup_lt_Some. }
  split.
  { apply list_lookup_insert_eq. by eapply lookup_lt_Some. }
  by rewrite Hone.
Qed.

Lemma Lock_unmatched_release_witness :
  exists s1,
    Lock.run [Lock.Release 0%nat; Lock.Tick 0%nat; Lock.Tick 0%nat] fresh_lock
    = Some s1
    /\ Atomics.value (Lock.cell s1) = 2
    /\ exists s2,
         Lock.run [Lock.Acquire 0%nat; Lock.Tick 0%nat; Lock.Tick 0%nat;
                   Lock.Acquire 1%nat; Lock.Tick 1%nat; Lock.Tick 1%nat] s1
         = Some s2
         /\ Lock.agents s2 !! 0%nat = Some (Lock.mk 1 Lock.idle)
         /\ Lock.agents s2 !! 1%nat = Some (Lock.mk 1 Lock.idle)
         /\ Atomics.value (Lock.cell s2) = 0.
Proof.
  destruct (Lock_unmatched_release fresh_lock 0%nat 1%nat wf_fresh_lock
              eq_refl eq_refl ltac:(discriminate))
    as (s1 & Hrun & _ & _ & _ & _ & Hfresh).
  exists s1. split; [exact Hrun|]. exact (Hfresh eq_refl).
Defined.

(** * Further properties *)

(** ** Record.Type: errors, lookup, extension *)

Section RecordFacts.
Import Record_Type Layout.
Implicit Types (ps : Properties) (fm : JsMap.t FieldInfo).

Lemma place_names sz ps : (place sz ps).*1 = ps.*1.
Proof.
  revert sz. induction ps as [|[name type] ps IH]; intros sz; simpl; [done|].
  by rewrite IH.
Qed.

Lemma place_app sz ps qs :
  place sz (ps ++ qs) = place sz ps ++ place (stop sz ps) qs.
Proof.
  revert sz. induction ps as [|[name type] ps IH]; intros sz; simpl; [done|].
  by rewrite IH.
Qed.

Lemma stop_app sz ps qs : stop sz (ps ++ qs) = stop (stop sz ps) qs.
Proof.
  revert sz. induction ps as [|[name type] ps IH]; intros sz; simpl; [done|].
  by rewrite IH.
Qed.

Lemma widest_app al ps qs : widest al (ps ++ qs) = widest (widest al ps) qs.
Proof.
  revert al. induction ps as [|[name type] ps IH]; intros al; simpl; [done|].
  by rewrite IH.
Qed.

Lemma stop_ge ps : forall sz, nonneg_sizes ps -> sz <= stop sz ps.
Proof.
  induction ps as [|[name type] ps IH]; intros sz Hnn; simpl; [lia|].
  apply Forall_cons in Hnn as [Hn0 Hnn]. simpl in Hn0.
  pose proof (IH (Alignment.align sz (PropertyType.alignment type)
                  + PropertyType.size type) Hnn).
  pose proof (Alignment_align_ge sz (PropertyType.alignment type)). lia.
Qed.

Lemma place_fit ps : forall sz name info,
  nonneg_sizes ps -> (name, info) ∈ place sz ps ->
  offset info + field_size info <= stop sz ps.
Proof.
  induction ps as [|[n0 t0] ps IH]; intros sz name info Hnn; simpl.
  - by intros ?%elem_of_nil.
  - apply Forall_cons in Hnn as [Hn0 Hnn].
    intros [[= -> ->]|Hin]%elem_of_cons.
    + by apply stop_ge.
    + by eapply IH.
Qed.

(** When the loop throws, it has met a name for the second time, and no name
    before that one was met twice. *)
Lemma loop_Throw ps : forall al sz fm e,
  loop ps al sz fm = Throw e ->
  exists before name type after,
    ps = before ++ (name, type) :: after
    /\ NoDup before.*1
    /\ (forall k, k ∈ before.*1 -> k ∉ fm.*1)
    /\ (name ∈ fm.*1 \/ name ∈ before.*1)
    /\ e = ComponentModelTrap ("Duplicate property " +:+ name).
Proof.
  induction ps as [|[n0 t0] ps IH]; intros al sz fm e; simpl; [done|].
  destruct (JsMap.has fm n0) eqn:Hhas.
  - intros [= <-]. exists [], n0, t0, ps. simpl.
    split; [done|]. split; [constructor|].
    split; [by intros k ?%elem_of_nil|].
    split; [|done]. left. by apply JsMap_has_elem.
  - assert (n0 ∉ fm.*1) as Hn0.
    { intros Hin%JsMap_has_elem. congruence. }
    rewrite (JsMap_set_fresh _ _ _ Hhas).
    intros (before & name & type & after & -> & Hnd & Hfresh & Hname & ->)%IH.
    rewrite fmap_app in Hfresh, Hname. simpl in Hfresh, Hname.
    exists ((n0, t0) :: before), name, type, after. simpl.
    split; [done|].
    split.
    { apply NoDup_cons. split; [|done].
      intros Hin. apply (Hfresh _ Hin), elem_of_app. right. left. }
    split.
    { intros k [->|Hin]%elem_of_cons; [done|].
      intros Hk. apply (Hfresh _ Hin), elem_of_app. by left. }
    split; [|done].
    destruct Hname as [[Hin|Hin%list_elem_of_singleton]%elem_of_app|Hin].
    + by left.
    + right. subst. left.
    + right. by right.
Qed.

(** In a map without repeated keys, [get] finds exactly the entries. *)
Lemma JsMap_get_elem {V : Type} (m : JsMap.t V) k v :
  NoDup m.*1 -> JsMap.get m k = Some v <-> (k, v) ∈ m.
Proof.
  induction m as [|[k0 v0] m IH]; simpl; intros Hnd.
  - split; [done|]. by intros ?%elem_of_nil.
  - apply NoDup_cons in Hnd as [Hk0 Hnd].
    destruct (String.eqb_spec k0 k) as [->|Hne].
    + split.
      * intros [= ->]. left.
      * intros [[= ->]|Hin]%elem_of_cons; [done|].
        exfalso. apply Hk0. apply list_elem_of_fmap. by exists (k, v).
    + rewrite (IH Hnd). split; [by right|].
      intros [[= ? ?]|Hin]%elem_of_cons; [congruence|done].
Qed.

Lemma JsMap_get_None {V : Type} (m : JsMap.t V) k :
  JsMap.get m k = None <-> k ∉ m.*1.
Proof.
  rewrite <- JsMap_has_elem. unfold JsMap.has.
  destruct (JsMap.get m k); split; intros; congruence.
Qed.

Lemma JsMap_get_app_l {V : Type} (m m' : JsMap.t V) k v :
  JsMap.get m k = Some v -> JsMap.get (m ++ m') k = Some v.
Proof.
  induction m as [|[k0 v0] m IH]; simpl; [done|].
  by destruct (String.eqb k0 k).
Qed.

Lemma constructor_names (props : list Properties) r :
  constructor props = Ok r -> NoDup (fields r).*1 /\ (fields r).*1 = (concat props).*1.
Proof.
  intros Hr.
  assert (NoDup (concat props).*1) as Hnd by (apply constructor_total; eauto).
  apply constructor_Ok in Hr as ->. simpl. by rewrite place_names.
Qed.
End RecordFacts.

(** X1.  The constructor of [Record.Type] throws exactly when some name is
    declared twice.  What it throws then is the trap "Duplicate property"
    with the first name that repeats an earlier one: the declarations before
    it have distinct names, and it is one of them. *)
Theorem Record_Type_duplicate (props : list Record_Type.Properties) :
  ((exists e, Record_Type.constructor props = Throw e)
   <-> ~ NoDup (concat props).*1)
  /\ (forall e, Record_Type.constructor props = Throw e ->
       exists before name type after,
         concat props = before ++ (name, type) :: after
         /\ NoDup before.*1
         /\ name ∈ before.*1
         /\ e = ComponentModelTrap ("Duplicate property " +:+ name)).
Proof.
  split.
  - pose proof (constructor_total props) as Htotal. split.
    + intros [e He] Hnd. apply Htotal in Hnd as [r Hr]. congruence.
    + intros Hdup. destruct (Record_Type.constructor props) as [r|e] eqn:Hr.
      * exfalso. apply Hdup, Htotal. by exists r.
      * by exists e.
  - intros e. unfold Record_Type.constructor. rewrite flatten_concat.
    destruct (Record_Type.loop _ _ _ _) as [[[al sz] fm]|e'] eqn:Hloop; [done|].
    intros [= <-].
    apply loop_Throw in Hloop
      as (before & name & type & after & Hps & Hnd & _ & [Hin|Hin] & He).
    + by apply elem_of_nil in Hin.
    + by exists before, name, type, after.
Qed.

(** X2.  On a record type that the constructor returned, [getField] finds
    exactly the entries of the type, each under its own name, and the entry
    of a name carries the type the name was declared with; [hasField] holds
    exactly of the declared names, and [getField] is undefined exactly on
    the others. *)
Theorem Record_Type_lookup (props : list Record_Type.Properties)
    (r : Record_Type.t) :
  Record_Type.constructor props = Ok r ->
  (forall name info,
     Record_Type.getField r name = Some info
     <-> (name, info) ∈ Record_Type.fields r)
  /\ (forall name info,
       Record_Type.getField r name = Some info ->
       (name, Record_Type.type info) ∈ concat props)
  /\ (forall name,
       Record_Type.hasField r name = true <-> name ∈ (concat props).*1)
  /\ (forall name,
       Record_Type.getField r name = None <-> name ∉ (concat props).*1).
Proof.
  intros Hr. destruct (constructor_names props r Hr) as [Hnd Hnames].
  assert (forall name info,
            Record_Type.getField r name = Some info
            <-> (name, info) ∈ Record_Type.fields r) as Hget.
  { intros name info. by apply JsMap_get_elem. }
  split; [done|]. split.
  { intros name info Hin%Hget.
    pose proof (constructor_Ok props r Hr) as ->. simpl in Hin.
    rewrite <- (place_declared 0 (concat props)).
    apply list_elem_of_fmap. by exists (name, info). }
  split.
  - intros name. unfold Record_Type.hasField.
    by rewrite JsMap_has_elem, Hnames.
  - intros name. unfold Record_Type.getField.
    by rewrite JsMap_get_None, Hnames.
Qed.

Lemma Record_Type_lookup_witness :
  Record_Type.getField SharedObject_type "_lock"
  = Some (Record_Type.mkFieldInfo Lock_Type 8)
  <-> ("_lock"%string, Record_Type.mkFieldInfo Lock_Type 8)
      ∈ Record_Type.fields SharedObject_type.
Proof.
  exact (proj1 (Record_Type_lookup [SharedObject_properties] SharedObject_type
                  eq_refl) "_lock"%string (Record_Type.mkFieldInfo Lock_Type 8)).
Defined.

(** X3.  On a record type that the constructor returned, for declarations
    whose sizes are not negative and whose running offset ends below 2^53
    (the range in which the numbers of the source are exact), every field
    lies inside the record: it starts at or after 0 and ends at or before
    [size]. *)
Theorem Record_Type_fields_fit (props : list Record_Type.Properties)
    (r : Record_Type.t) :
  Layout.nonneg_sizes (concat props) ->
  Layout.stop 0 (concat props) < 2 ^ 53 ->
  Record_Type.constructor props = Ok r ->
  0 <= Record_Type.size r
  /\ forall name info,
       Record_Type.getField r name = Some info ->
       0 <= Record_Type.offset info
       /\ Record_Type.offset info + Layout.field_size info <= Record_Type.size r.
Proof.
  intros Hnn _ Hr. destruct (constructor_names props r Hr) as [Hnd _].
  pose proof (constructor_Ok props r Hr) as Heq.
  split.
  - rewrite Heq. simpl. by apply stop_ge.
  - intros name info Hin%JsMap_get_elem; [|done].
    rewrite Heq in Hin |- *. simpl in *. split.
    + by destruct (place_bounds _ _ _ _ Hnn Hin).
    + by apply (place_fit _ _ name).
Qed.

Lemma Record_Type_fields_fit_witness :
  0 <= Record_Type.size SharedObject_type
  /\ forall name info,
       Record_Type.getField SharedObject_type name = Some info ->
       0 <= Record_Type.offset info
       /\ Record_Type.offset info + Layout.field_size info
          <= Record_Type.size SharedObject_type.
Proof.
  apply (Record_Type_fields_fit [SharedObject_properties] SharedObject_type);
    [repeat constructor; simpl; lia | reflexivity | reflexivity].
Defined.

(** X4.  Passing several lists of properties to the constructor is passing
    their concatenation as one list. *)
Theorem Record_Type_constructor_concat (props : list Record_Type.Properties) :
  Record_Type.constructor props = Record_Type.constructor [concat props].
Proof.
  unfold Record_Type.constructor. rewrite !flatten_concat. simpl.
  by rewrite app_nil_r.
Qed.

(** X5.  A record type declared as a base list followed by further lists
    extends the type of the base list alone: that type exists, its entries
    are the first entries of the extended type, with the same offsets, so
    every field of the base is found at its old place; the added fields
    start at or after the size of the base type; and neither the size nor
    the alignment is smaller than that of the base type. *)
Theorem Record_Type_extension (base : Record_Type.Properties)
    (more : list Record_Type.Properties) (r' : Record_Type.t) :
  Layout.nonneg_sizes (concat more) ->
  Record_Type.constructor (base :: more) = Ok r' ->
  exists r extra,
    Record_Type.constructor [base] = Ok r
    /\ Record_Type.fields r' = Record_Type.fields r ++ extra
    /\ Layout.declared <$> extra = concat more
    /\ (forall name info, (name, info) ∈ extra ->
          Record_Type.size r <= Record_Type.offset info)
    /\ (forall name info,
          Record_Type.getField r name = Some info ->
          Record_Type.getField r' name = Some info)
    /\ Record_Type.size r <= Record_Type.size r'
    /\ Alignment.to_Z (Record_Type.alignment r)
       <= Alignment.to_Z (Record_Type.alignment r').
Proof.
  intros Hnn Hr'.
  assert (NoDup (concat (base :: more)).*1) as Hnd by (apply constructor_total; eauto).
  apply constructor_Ok in Hr' as ->. simpl concat in *.
  assert (exists r, Record_Type.constructor [base] = Ok r) as [r Hr].
  { apply constructor_total. simpl. rewrite app_nil_r.
    rewrite fmap_app in Hnd. by apply NoDup_app in Hnd as [? _]. }
  pose proof (constructor_Ok _ _ Hr) as Heq. simpl in Heq.
  rewrite app_nil_r in Heq.
  exists r, (Layout.place (Layout.stop 0 base) (concat more)).
  split; [done|]. rewrite Heq. simpl.
  split; [apply place_app|].
  split; [apply place_declared|].
  split.
  { intros name info Hin. by destruct (place_bounds _ _ _ _ Hnn Hin). }
  split.
  { intros name info. unfold Record_Type.getField. simpl.
    rewrite place_app. apply JsMap_get_app_l. }
  split.
  - rewrite stop_app. by apply stop_ge.
  - rewrite widest_app. apply widest_ge.
Qed.

Lemma Record_Type_extension_witness :
  exists r extra,
    Record_Type.constructor [SharedObject_properties] = Ok r
    /\ Record_Type.fields
         {| Record_Type.alignment := Alignment.doubleWord;
            Record_Type.size := 34;
            Record_Type.fields :=
              Record_Type.fields SharedObject_type
              ++ [("flag"%string, Record_Type.mkFieldInfo (PropertyType.mk 1 Alignment.byte) 12);
                  ("count"%string, Record_Type.mkFieldInfo u32 16);
                  ("stamp"%string, Record_Type.mkFieldInfo (PropertyType.mk 8 Alignment.doubleWord) 24);
                  ("tag"%string, Record_Type.mkFieldInfo (PropertyType.mk 2 Alignment.halfWord) 32)] |}
       = Record_Type.fields r ++ extra.
Proof.
  destruct (Record_Type_extension SharedObject_properties [mixed_properties] _
              ltac:(repeat constructor; simpl; lia) eq_refl)
    as (r & extra & Hr & Hfields & _).
  by exists r, extra.
Defined.

(** ** The arena: outcomes of [alloc], clamping of [copyWithin] *)

Section ArenaFacts.
Implicit Types (this : MemoryImpl) (st : State) (bytes : list byte).

(** What a successful [alloc] has done. *)
Lemma alloc_Ok this align requested st range st' :
  SharedMemory.alloc this align requested st = (Ok range, st') ->
  exists p bytes,
    aligned_alloc (exports this) (Alignment.to_Z align) requested (buffer st)
    = (Ok p, bytes)
    /\ p <> 0 /\ 0 <= p /\ 0 <= requested /\ p + requested <= byteLength bytes
    /\ range = Range.new this p requested false
    /\ st' = mkState (Uint8Array.fill (Uint8Array.mk (p + 0) (requested - 0))
                        x00 bytes)
                     (console st).
Proof.
  unfold SharedMemory.alloc.
  destruct (aligned_alloc _ _ _ _) as [[p|e] bytes]; [|done].
  destruct (Z.eqb_spec p 0) as [|Hp]; [done|].
  unfold Range.getUint8View, Uint8Array.new. simpl.
  destruct (Z.ltb_spec requested 0); simpl; [done|].
  destruct (Z.ltb_spec (p + 0) 0); simpl; [done|].
  destruct (Z.ltb_spec (requested - 0) 0); simpl; [done|].
  destruct (Z.ltb_spec (byteLength bytes) (p + 0 + (requested - 0))); [done|].
  intros [= <- <-]. exists p, bytes. repeat split; try done; lia.
Qed.

(** What a failed [alloc] has done. *)
Lemma alloc_Throw this align requested st e st' :
  SharedMemory.alloc this align requested st = (Throw e, st') ->
  console st'
  = console st ++ [AllocFailed align requested (byteLength (buffer st'))].
Proof.
  unfold SharedMemory.alloc.
  destruct (aligned_alloc _ _ _ _) as [[p|e'] bytes].
  - destruct (p =? 0); [by intros [= <- <-]|].
    destruct (Range.getUint8View _ _ _); [done|]. by intros [= <- <-].
  - by intros [= <- <-].
Qed.

Lemma relative_index_range len i :
  0 <= len -> 0 <= Uint8Array.relative_index len i <= len.
Proof.
  intros Hlen. unfold Uint8Array.relative_index.
  destruct (Z.ltb_spec i 0); lia.
Qed.

Lemma Uint8Array_copyWithin_length bytes target start end_ :
  length (Uint8Array.copyWithin bytes target start end_) = length bytes.
Proof.
  unfold Uint8Array.copyWithin. cbv zeta.
  assert (0 <= byteLength bytes) as Hlen by (unfold byteLength; lia).
  pose proof (relative_index_range (byteLength bytes) target Hlen).
  pose proof (relative_index_range (byteLength bytes) start Hlen).
  pose proof (relative_index_range (byteLength bytes) end_ Hlen).
  match goal with
  | |- context [0 <? ?count] => destruct (Z.ltb_spec 0 count) as [Hpos|Hpos]
  end; [|done].
  apply length_splice; rewrite ?length_take, ?length_drop;
    unfold byteLength in *; lia.
Qed.
End ArenaFacts.

(** X6.  Whatever the export [aligned_alloc] does, [alloc] ends in one of two
    ways.  Either it returns a range: then nothing is logged, the range is
    over this memory, has the requested size and a non-null address, lies
    inside the buffer, and every byte of it reads as zero.  Or it throws:
    then exactly one entry is logged, with the requested alignment and size
    and the byte length of the buffer at that moment.  An error thrown by
    the export is the error that [alloc] throws. *)
Theorem SharedMemory_alloc_outcome (this : MemoryImpl) (align : Alignment.t)
    (requested : Z) (st : State) (outcome : result MemoryRange) (st' : State) :
  SharedMemory.alloc this align requested st = (outcome, st') ->
  match outcome with
  | Ok range =>
      console st' = console st
      /\ memory range = this /\ size range = requested
      /\ ptr range <> 0 /\ 0 <= ptr range /\ 0 <= size range
      /\ ptr range + size range <= byteLength (buffer st')
      /\ (forall offset, 0 <= offset < size range ->
            Range.getUint8 range offset (buffer st') = Ok x00)
  | Throw e =>
      console st'
      = console st ++ [AllocFailed align requested (byteLength (buffer st'))]
      /\ (forall e' bytes,
            aligned_alloc (exports this) (Alignment.to_Z align) requested
              (buffer st) = (Throw e', bytes) ->
            e = e' /\ buffer st' = bytes)
  end.
Proof.
  intros Halloc. destruct outcome as [range|e].
  - apply alloc_Ok in Halloc
      as (p & bytes & _ & Hp & Hp0 & Hreq & Hend & -> & ->). simpl.
    assert (length (Uint8Array.fill (Uint8Array.mk (p + 0) (requested - 0)) x00 bytes)
            = length bytes) as Hlen.
    { apply Uint8Array_fill_length; simpl; lia. }
    repeat (split; [done|]).
    split; [unfold byteLength in *; lia|].
    intros offset Hoffset. unfold Range.getUint8. simpl.
    destruct (Z.ltb_spec offset 0); [lia|].
    destruct (Z.ltb_spec requested (offset + 1)); [lia|]. simpl.
    rewrite Uint8Array_fill_lookup by (simpl; lia). simpl.
    by rewrite decide_True by lia.
  - split; [by eapply alloc_Throw|].
    intros e' bytes Hcall. unfold SharedMemory.alloc in Halloc.
    rewrite Hcall in Halloc. by injection Halloc as <- <-.
Qed.

Lemma SharedMemory_alloc_outcome_witness :
  console (mkState (buffer eight_bytes) [AllocFailed Alignment.word 4 8])
  = console eight_bytes
    ++ [AllocFailed Alignment.word 4
          (byteLength (buffer (mkState (buffer eight_bytes)
                                 [AllocFailed Alignment.word 4 8])))]
  /\ (forall e' bytes,
        aligned_alloc (exports (arena 0)) (Alignment.to_Z Alignment.word) 4
          (buffer eight_bytes) = (Throw e', bytes) ->
        Error "Allocation failed" = e'
        /\ buffer (mkState (buffer eight_bytes) [AllocFailed Alignment.word 4 8])
           = bytes).
Proof.
  exact (SharedMemory_alloc_outcome (arena 0) Alignment.word 4 eight_bytes
           (Throw (Error "Allocation failed"))
           (mkState (buffer eight_bytes) [AllocFailed Alignment.word 4 8])
           eq_refl).
Defined.

(** X7.  [copyWithin] never changes the byte length of the buffer and logs
    nothing, whatever the two ranges are, inside the buffer or not: what
    does not fit is left out without an error.  With pointers and a source
    size that are not negative, an empty source, or a destination or a
    source that starts at or after the end of the buffer, leaves every byte
    as it is. *)
Theorem SharedMemory_copyWithin_clamped (this : MemoryImpl) (dest : MemoryRange)
    (src : ReadonlyMemoryRange) (st : State) :
  length (buffer (SharedMemory.copyWithin this dest src st)) = length (buffer st)
  /\ console (SharedMemory.copyWithin this dest src st) = console st
  /\ (0 <= ptr dest -> 0 <= ptr src -> 0 <= size src ->
      size src = 0 \/ byteLength (buffer st) <= ptr dest
      \/ byteLength (buffer st) <= ptr src ->
      buffer (SharedMemory.copyWithin this dest src st) = buffer st).
Proof.
  split; [apply Uint8Array_copyWithin_length|]. split; [done|].
  intros Hd Hs Hn Hnone.
  unfold SharedMemory.copyWithin, Uint8Array.copyWithin,
    Uint8Array.relative_index. simpl.
  destruct (Z.ltb_spec (ptr dest) 0); [lia|].
  destruct (Z.ltb_spec (ptr src) 0); [lia|].
  destruct (Z.ltb_spec (ptr src + size src) 0); [lia|].
  match goal with
  | |- context [0 <? ?count] => destruct (Z.ltb_spec 0 count) as [Hpos|Hpos]
  end; [|done].
  unfold byteLength in *. lia.
Qed.

(** X8.  A range that [alloc] has returned can be handed on: in the state
    after the allocation, the location made from the range resolves against
    the same memory to a range with the same [ptr] and [size]. *)
Theorem SharedMemory_alloc_location (this : MemoryImpl) (align : Alignment.t)
    (requested : Z) (st : State) (range : MemoryRange) (st' : State) :
  SharedMemory.alloc this align requested st = (Ok range, st') ->
  exists resolved,
    MemoryLocation.to this (MemoryLocation.from range) st' = Ok resolved
    /\ memory resolved = this
    /\ ptr resolved = ptr range
    /\ size resolved = size range.
Proof.
  intros (p & bytes & _ & Hp & Hp0 & Hreq & Hend & -> & ->)%alloc_Ok.
  unfold MemoryLocation.to, SharedMemory.preAllocated. simpl.
  rewrite String.eqb_refl. simpl.
  assert (length (Uint8Array.fill (Uint8Array.mk (p + 0) (requested - 0)) x00 bytes)
          = length bytes) as Hlen.
  { apply Uint8Array_fill_length; simpl; lia. }
  destruct (Z.ltb_spec (byteLength (Uint8Array.fill (Uint8Array.mk (p + 0)
                                      (requested - 0)) x00 bytes))
              (p + requested)) as [Hout|_].
  - unfold byteLength in *. lia.
  - by eexists.
Qed.

Lemma SharedMemory_alloc_location_witness :
  exists resolved,
    MemoryLocation.to (arena 2)
      (MemoryLocation.from (Range.new (arena 2) 2 2 false))
      (mkState [x01; x02; x00; x00; x00; x00; x00; x00] [])
    = Ok resolved
    /\ memory resolved = arena 2
    /\ ptr resolved = ptr (Range.new (arena 2) 2 2 false)
    /\ size resolved = size (Range.new (arena 2) 2 2 false).
Proof.
  exact (SharedMemory_alloc_location (arena 2) Alignment.halfWord 2 eight_bytes
           (Range.new (arena 2) 2 2 false)
           (mkState [x01; x02; x00; x00; x00; x00; x00; x00] []) eq_refl).
Defined.

(** X9.  When memory for a record type is allocated with the type's own
    alignment and size, every field of the type lies in the range returned,
    and every byte of every field reads as zero. *)
Theorem Record_Type_alloc_zeroed (props : list Record_Type.Properties)
    (r : Record_Type.t) (this : MemoryImpl) (st : State)
    (range : MemoryRange) (st' : State) :
  Layout.nonneg_sizes (concat props) ->
  Record_Type.constructor props = Ok r ->
  SharedMemory.alloc this (Record_Type.alignment r) (Record_Type.size r) st
  = (Ok range, st') ->
  forall name info,
    Record_Type.getField r name = Some info ->
    0 <= Record_Type.offset info
    /\ Record_Type.offset info + Layout.field_size info <= size range
    /\ forall k, 0 <= k < Layout.field_size info ->
         Range.getUint8 range (Record_Type.offset info + k) (buffer st') = Ok x00.
Proof.
  intros Hnn Hr Halloc name info Hget.
  destruct (constructor_names props r Hr) as [Hnd _].
  apply JsMap_get_elem in Hget; [|done].
  pose proof (constructor_Ok props r Hr) as Heq.
  assert (0 <= Record_Type.offset info
          /\ Record_Type.offset info + Layout.field_size info
             <= Record_Type.size r) as [Hlo Hhi].
  { rewrite Heq in Hget |- *. simpl in *. split.
    - by destruct (place_bounds _ _ _ _ Hnn Hget).
    - by apply (place_fit _ _ name). }
  apply alloc_Ok in Halloc
    as (p & bytes & _ & Hp & Hp0 & Hreq & Hend & -> & ->). simpl.
  split; [done|]. split; [done|].
  intros k Hk. unfold Range.getUint8. simpl.
  destruct (Z.ltb_spec (Record_Type.offset info + k) 0); [lia|].
  destruct (Z.ltb_spec (Record_Type.size r) (Record_Type.offset info + k + 1));
    [lia|]. simpl.
  rewrite Uint8Array_fill_lookup by (simpl; lia). simpl.
  by rewrite decide_True by lia.
Qed.

Lemma Record_Type_alloc_zeroed_witness :
  0 <= Record_Type.offset (Record_Type.mkFieldInfo Lock_Type 8)
  /\ Record_Type.offset (Record_Type.mkFieldInfo Lock_Type 8)
     + Layout.field_size (Record_Type.mkFieldInfo Lock_Type 8)
     <= size (Range.new (arena 4) 4 12 false)
  /\ forall k, 0 <= k < Layout.field_size (Record_Type.mkFieldInfo Lock_Type 8) ->
       Range.getUint8 (Range.new (arena 4) 4 12 false)
         (Record_Type.offset (Record_Type.mkFieldInfo Lock_Type 8) + k)
         (replicate 4 xff ++ replicate 12 x00)
       = Ok x00.
Proof.
  exact (Record_Type_alloc_zeroed [SharedObject_properties] SharedObject_type
           (arena 4) sixteen_bytes (Range.new (arena 4) 4 12 false)
           (mkState (replicate 4 xff ++ replicate 12 x00) [])
           ltac:(repeat constructor; simpl; lia) eq_refl eq_refl
           "_lock"%string (Record_Type.mkFieldInfo Lock_Type 8) eq_refl).
Defined.

(** ** Lock: mutual exclusion, reentrancy, contention *)

Section ExclusionFacts.
Import Atomics Lock Exclusion.
Implicit Types (l : list Lock.t) (s : System).

Lemma holding_range (this : Lock.t) : 0 <= holding this <= 1.
Proof.
  unfold holding. destruct (control this); try lia.
  destruct (0 <? lockCount this); lia.
Qed.

Lemma holders_nonneg l : 0 <= holders l.
Proof.
  induction l as [|x l IH]; simpl; [lia|].
  pose proof (holding_range x). lia.
Qed.

Lemma holders_insert l i x y :
  l !! i = Some x -> holders (<[i := y]> l) = holders l - holding x + holding y.
Proof.
  revert i. induction l as [|z l IH]; intros [|i]; simpl; try done.
  - intros [= ->]. lia.
  - intros Hi. rewrite (IH _ Hi). lia.
Qed.

Lemma holding_resume (this : Lock.t) : holding (resume this) = holding this.
Proof. destruct this as [n []]; reflexivity. Qed.

Lemma sound_resume (this : Lock.t) : sound this -> sound (resume this).
Proof. destruct this as [n []]; simpl; done. Qed.

Lemma holders_alter_resume l j : holders (alter resume j l) = holders l.
Proof.
  revert j. induction l as [|x l IH]; intros [|j]; try done.
  - simpl. by rewrite holding_resume.
  - change (holding x + holders (alter resume j l) = holding x + holders l).
    by rewrite IH.
Qed.

Lemma holders_resumed l woken :
  holders (foldr (fun j l => alter resume j l) l woken) = holders l.
Proof.
  induction woken as [|j woken IH]; simpl; [done|].
  by rewrite holders_alter_resume.
Qed.

Lemma sound_resumed l woken :
  Forall sound l -> Forall sound (foldr (fun j l => alter resume j l) l woken).
Proof.
  intros Hl. induction woken as [|j woken IH]; simpl; [done|].
  apply Forall_alter; [done|]. intros this _. apply sound_resume.
Qed.

Lemma holders_lookup l i x : l !! i = Some x -> holding x <= holders l.
Proof.
  revert i. induction l as [|z l IH]; intros [|i]; simpl; try done.
  - intros [= ->]. pose proof (holders_nonneg l). lia.
  - intros Hi%IH. pose proof (holding_range z). lia.
Qed.

Lemma holders_two l i j a b :
  i <> j -> l !! i = Some a -> l !! j = Some b ->
  holding a + holding b <= holders l.
Proof.
  revert i j. induction l as [|z l IH]; intros [|i] [|j] Hij; simpl; try done.
  - intros [= ->] Hj%holders_lookup. lia.
  - intros Hi%holders_lookup [= ->]. lia.
  - intros Hi Hj. pose proof (IH i j ltac:(lia) Hi Hj).
    pose proof (holding_range z). lia.
Qed.

Lemma exclusive_created n c : exclusive (created n c).
Proof.
  unfold created, exclusive. simpl.
  split; [split; [apply ToInt32_int32 | by apply Forall_replicate]|].
  split; [by apply Forall_replicate|].
  assert (ToInt32 1 = 1) as -> by reflexivity.
  split; [lia|].
  assert (holders (replicate n (mk 0 idle)) = 0) as ->; [|lia].
  induction n as [|n IH]; simpl; [done|]. by rewrite IH.
Qed.
End ExclusionFacts.

(** Evaluates [holding] and [sound] at an agent whose control state is known
    from [Hctl]. *)
Ltac at_control Hctl :=
  unfold Exclusion.holding, Exclusion.sound in *; simpl in *;
  rewrite ?Hctl in *; simpl in *;
  repeat match goal with
         | |- context [0 <? ?n] => destruct (Z.ltb_spec 0 n)
         | H : context [0 <? ?n] |- _ => destruct (Z.ltb_spec 0 n)
         end;
  try lia.

Section ExclusionSteps.
Import Atomics Lock Exclusion.

(** Every matched action keeps the lock exclusive. *)
Lemma exec_exclusive a s s' :
  exclusive s -> matched a s -> exec a s = Some s' -> exclusive s'.
Proof.
  intros (Hwf & Hsound & Hnonneg & Hsum) Hmatched Hexec.
  assert (wf s') as Hwf' by (by eapply exec_wf).
  split; [done|]. clear Hwf'.
  assert (forall i this, agents s !! i = Some this -> sound this) as Hsound_at.
  { intros i this Hthis. rewrite Forall_lookup in Hsound. by eapply Hsound. }
  destruct a as [i|i|i];
    (destruct (agents s !! i) as [this|] eqn:Hthis;
     [|by simpl in Hexec; rewrite Hthis in Hexec]);
    pose proof (Hsound_at _ _ Hthis) as Hs;
    pose proof (holders_lookup _ _ _ Hthis) as Hle;
    pose proof (holders_insert (agents s) i this) as Hins;
    destruct (control this) as [| |v|v| | |] eqn:Hctl;
    try (exfalso; revert Hexec; by exec_at Hthis Hctl).
  - (* acquire() *)
    destruct (Z.lt_ge_cases 0 (lockCount this)) as [Hheld|Hfree].
    + rewrite (acquire_held s i this Hthis Hctl Hheld) in Hexec.
      injection Hexec as <-. simpl. rewrite Hins by done.
      split; [apply Forall_insert; [done|]|]; at_control Hctl.
    + rewrite (acquire_free s i this Hthis Hctl ltac:(lia)) in Hexec.
      injection Hexec as <-. simpl. rewrite Hins by done.
      split; [apply Forall_insert; [done|]|]; at_control Hctl.
  - (* release() *)
    pose proof (Hmatched _ Hthis) as Hheld. simpl in Hmatched.
    destruct (Z.lt_ge_cases 1 (lockCount this)) as [Hinner|Hlast].
    + rewrite (release_held s i this Hthis Hctl Hinner) in Hexec.
      injection Hexec as <-. simpl. rewrite Hins by done.
      split; [apply Forall_insert; [done|]|]; at_control Hctl.
    + rewrite (release_last s i this Hthis Hctl ltac:(lia)) in Hexec.
      injection Hexec as <-. simpl. rewrite Hins by done.
      split; [apply Forall_insert; [done|]|]; at_control Hctl.
  - (* load *)
    rewrite (tick_acquire_load s i this Hthis Hctl) in Hexec.
    injection Hexec as <-. simpl. rewrite Hins by done.
    split; [apply Forall_insert; [done|]|]; at_control Hctl.
  - (* exchange *)
    destruct (decide (0 < v /\ value (cell s) = v)) as [[Hpos Hcell]|Hfail].
    + rewrite (tick_acquire_exchange_success s i this Hwf Hthis v Hctl Hpos Hcell)
        in Hexec.
      injection Hexec as <-. simpl. rewrite Hins by done.
      split; [apply Forall_insert; [done|]|]; at_control Hctl.
    + rewrite (tick_acquire_exchange_failure s i this Hwf Hthis v Hctl Hfail)
        in Hexec.
      injection Hexec as <-. simpl. rewrite Hins by done.
      split; [apply Forall_insert; [done|]|]; at_control Hctl.
  - (* wait *)
    destruct (decide (value (cell s) = v)) as [Hcell|Hcell].
    + rewrite (tick_acquire_wait_suspend s i this Hwf Hthis v Hctl Hcell) in Hexec.
      injection Hexec as <-. simpl. rewrite Hins by done.
      split; [apply Forall_insert; [done|]|]; at_control Hctl.
    + rewrite (tick_acquire_wait_retry s i this Hwf Hthis v Hctl Hcell) in Hexec.
      injection Hexec as <-. simpl. rewrite Hins by done.
      split; [apply Forall_insert; [done|]|]; at_control Hctl.
  - (* add *)
    rewrite (tick_release_add s i this Hthis Hctl) in Hexec.
    injection Hexec as <-. simpl. rewrite Hins by done.
    assert (value (cell s) = 0) as Hzero by at_control Hctl.
    rewrite Hzero in *. assert (ToInt32 (0 + 1) = 1) as -> by reflexivity.
    split; [apply Forall_insert; [done|]|]; at_control Hctl.
  - (* notify *)
    rewrite (tick_release_notify s i this Hthis Hctl) in Hexec.
    injection Hexec as <-. simpl. rewrite holders_resumed, Hins by done.
    split; [apply sound_resumed, Forall_insert; [done|]|]; at_control Hctl.
Qed.

Lemma run_exclusive schedule : forall s s',
  exclusive s -> disciplined schedule s -> run schedule s = Some s' ->
  exclusive s'.
Proof.
  induction schedule as [|a schedule IH]; intros s s' Hs; simpl.
  - by intros _ [= <-].
  - intros [Hmatched Hrest]. destruct (exec a s) as [s1|] eqn:Hexec; [|done].
    simpl. apply IH; [by eapply exec_exclusive|by apply Hrest].
Qed.
End ExclusionSteps.

(** X10.  Mutual exclusion.  Take any number of agents on a lock that has
    just been created, and any interleaving of their calls and steps in which
    no agent calls [release()] with local counter 0.  Then, at every state
    reached, the element is 0 or 1, at most one agent is inside its critical
    section, the element is 0 whenever an agent is, and no local counter is
    negative. *)
Theorem Lock_mutual_exclusion (n : nat) (c : Atomics.Cell)
    (schedule : list Lock.Action) (s' : Lock.System) :
  Exclusion.disciplined schedule (Exclusion.created n c) ->
  Lock.run schedule (Exclusion.created n c) = Some s' ->
  (Atomics.value (Lock.cell s') = 0 \/ Atomics.value (Lock.cell s') = 1)
  /\ (forall i j a b,
        Lock.agents s' !! i = Some a -> Lock.agents s' !! j = Some b ->
        Exclusion.holding a = 1 -> Exclusion.holding b = 1 -> i = j)
  /\ (forall i a,
        Lock.agents s' !! i = Some a -> Exclusion.holding a = 1 ->
        Atomics.value (Lock.cell s') = 0)
  /\ (forall i a, Lock.agents s' !! i = Some a -> 0 <= Lock.lockCount a).
Proof.
  intros Hdisciplined Hrun.
  destruct (run_exclusive schedule _ _ (exclusive_created n c) Hdisciplined Hrun)
    as (_ & Hsound & Hnonneg & Hsum).
  pose proof (holders_nonneg (Lock.agents s')) as Hholders.
  split; [lia|]. split.
  { intros i j a b Hi Hj Ha Hb. destruct (decide (i = j)) as [|Hij]; [done|].
    pose proof (holders_two _ _ _ _ _ Hij Hi Hj). lia. }
  split.
  { intros i a Hi Ha. pose proof (holders_lookup _ _ _ Hi). lia. }
  intros i a Hi. rewrite Forall_lookup in Hsound.
  pose proof (Hsound _ _ Hi) as Ha. unfold Exclusion.sound in Ha.
  destruct (Lock.control a); lia.
Qed.

Lemma Lock_mutual_exclusion_witness :
  Atomics.value (Atomics.mkCell 0 []) = 0
  \/ Atomics.value (Atomics.mkCell 0 []) = 1.
Proof.
  refine (proj1 (Lock_mutual_exclusion 2 (Atomics.mkCell 0 [])
                   [Lock.Acquire 0%nat; Lock.Tick 0%nat; Lock.Tick 0%nat]
                   (Lock.mkSystem (Atomics.mkCell 0 [])
                      [Lock.mk 1 Lock.idle; Lock.mk 0 Lock.idle]) _ eq_refl)).
  repeat (split; [exact I|]; intros ? [= <-]). exact I.
Defined.

Section ReentrancyFacts.
Import Atomics Lock.

Lemma run_acquire_held n : forall s i k,
  agents s !! i = Some (mk k idle) -> 0 < k ->
  run (replicate n (Acquire i)) s
  = Some (mkSystem (cell s) (<[i := mk (k + Z.of_nat n) idle]> (agents s))).
Proof.
  induction n as [|n IH]; intros s i k Hthis Hk.
  - simpl. rewrite Z.add_0_r, list_insert_id by done. by destruct s.
  - pose proof (lookup_lt_Some _ _ _ Hthis) as Hi.
    change (replicate (S n) (Acquire i)) with (Acquire i :: replicate n (Acquire i)).
    cbn [run]. rewrite (acquire_held s i _ Hthis eq_refl Hk). cbn [mbind option_bind].
    rewrite (IH _ i (k + 1)); [|simpl; by apply list_lookup_insert_eq|lia].
    simpl. rewrite list_insert_insert_eq. do 4 f_equal. lia.
Qed.

Lemma run_release_held n : forall s i k,
  agents s !! i = Some (mk (k + Z.of_nat n) idle) -> 0 < k ->
  run (replicate n (Release i)) s
  = Some (mkSystem (cell s) (<[i := mk k idle]> (agents s))).
Proof.
  induction n as [|n IH]; intros s i k Hthis Hk.
  - simpl in *. rewrite Z.add_0_r in Hthis.
    rewrite list_insert_id by done. by destruct s.
  - pose proof (lookup_lt_Some _ _ _ Hthis) as Hi.
    change (replicate (S n) (Release i)) with (Release i :: replicate n (Release i)).
    cbn [run].
    rewrite (release_held s i _ Hthis eq_refl ltac:(simpl; lia)).
    cbn [mbind option_bind].
    rewrite (IH _ i k); [|simpl|lia].
    + simpl. by rewrite list_insert_insert_eq.
    + rewrite list_lookup_insert_eq by done. do 2 f_equal. simpl. lia.
Qed.
End ReentrancyFacts.

(** X11.  Reentrancy.  An agent that holds the lock (local counter [k]
    above 0) may call [acquire()] any number [n] of times in a row: every
    call returns at once, the shared element and the other agents are left
    as they are, and the local counter is [k + n].  The same number of
    calls of [release()] after that restores the state the agent started
    from, still holding the lock. *)
Theorem Lock_reentrant_balance (s : Lock.System) (i : nat) (k : Z) (n : nat) :
  Lock.agents s !! i = Some (Lock.mk k Lock.idle) ->
  0 < k ->
  Lock.run (replicate n (Lock.Acquire i)) s
  = Some (Lock.mkSystem (Lock.cell s)
            (<[i := Lock.mk (k + Z.of_nat n) Lock.idle]> (Lock.agents s)))
  /\ Lock.run (replicate n (Lock.Acquire i) ++ replicate n (Lock.Release i)) s
     = Some s.
Proof.
  intros Hthis Hk. pose proof (lookup_lt_Some _ _ _ Hthis) as Hi.
  split; [by apply run_acquire_held|].
  rewrite run_app, (run_acquire_held n s i k Hthis Hk). cbn [mbind option_bind].
  rewrite (run_release_held n _ i k);
    [|simpl; by apply list_lookup_insert_eq|done].
  simpl. rewrite list_insert_insert_eq, list_insert_id by done. by destruct s.
Qed.

Lemma Lock_reentrant_balance_witness :
  Lock.run (replicate 3 (Lock.Acquire 0%nat) ++ replicate 3 (Lock.Release 0%nat))
    held_lock
  = Some held_lock.
Proof.
  exact (proj2 (Lock_reentrant_balance held_lock 0%nat 2 3 eq_refl
                  ltac:(lia))).
Defined.

Section ViewFacts.
Import Atomics Lock Exclusion.

Lemma resume_resume (this : Lock.t) : resume (resume this) = resume this.
Proof. by destruct this as [n []]. Qed.

Lemma resumed_nil j b : resumed [] j b = b.
Proof. reflexivity. Qed.

Lemma resumed_here j woken b : resumed (j :: woken) j b = resume b.
Proof.
  unfold resumed. rewrite bool_decide_eq_true_2; [done|left].
Qed.

Lemma resumed_other i j b : i <> j -> resumed [j] i b = b.
Proof.
  intros Hij. unfold resumed. rewrite bool_decide_eq_false_2; [done|].
  by intros ?%list_elem_of_singleton.
Qed.

Lemma lookup_resumed_at (l : list Lock.t) woken j b :
  l !! j = Some b ->
  foldr (fun k l => alter resume k l) l woken !! j = Some (resumed woken j b).
Proof.
  intros Hj. induction woken as [|k woken IH]; simpl; [done|].
  rewrite list_lookup_alter. destruct (decide (k = j)) as [->|Hkj].
  - rewrite IH, resumed_here. simpl. f_equal. unfold resumed.
    destruct (bool_decide (j ∈ woken)); [apply resume_resume|done].
  - rewrite IH. f_equal. unfold resumed.
    destruct (decide (j ∈ woken)) as [Hin|Hin].
    + rewrite (bool_decide_eq_true_2 (j ∈ woken)) by done.
      by rewrite (bool_decide_eq_true_2 (j ∈ k :: woken)) by (by right).
    + rewrite (bool_decide_eq_false_2 (j ∈ woken)) by done.
      rewrite (bool_decide_eq_false_2 (j ∈ k :: woken)); [done|].
      intros [?|?]%elem_of_cons; [congruence|done].
Qed.

Lemma view_swap s c i a j b : view s c i a j b -> view s c j b i a.
Proof. intros (? & ? & ?). by repeat split. Qed.

Lemma view_acquire s c i a a' j b :
  view s c i a j b -> i <> j -> call_acquire a = Some a' ->
  exists s', exec (Acquire i) s = Some s' /\ view s' c i a' j b.
Proof.
  intros (Hc & Hi & Hj) Hij Hcall. simpl. rewrite Hi. simpl. rewrite Hcall. simpl.
  eexists. split; [done|]. repeat split; simpl; [done| |].
  - apply list_lookup_insert_eq. by eapply lookup_lt_Some.
  - by rewrite list_lookup_insert_ne.
Qed.

Lemma view_release s c i a a' j b :
  view s c i a j b -> i <> j -> call_release a = Some a' ->
  exists s', exec (Release i) s = Some s' /\ view s' c i a' j b.
Proof.
  intros (Hc & Hi & Hj) Hij Hcall. simpl. rewrite Hi. simpl. rewrite Hcall. simpl.
  eexists. split; [done|]. repeat split; simpl; [done| |].
  - apply list_lookup_insert_eq. by eapply lookup_lt_Some.
  - by rewrite list_lookup_insert_ne.
Qed.

Lemma view_tick s c i a a' c' woken j b :
  view s c i a j b -> i <> j -> step i a c = Some (a', c', woken) ->
  exists s',
    exec (Tick i) s = Some s'
    /\ view s' c' i (resumed woken i a') j (resumed woken j b).
Proof.
  intros (Hc & Hi & Hj) Hij Hstep. simpl. rewrite Hi. simpl.
  rewrite Hc, Hstep. simpl.
  eexists. split; [done|]. repeat split; simpl.
  - apply lookup_resumed_at, list_lookup_insert_eq. by eapply lookup_lt_Some.
  - apply lookup_resumed_at. by rewrite list_lookup_insert_ne.
Qed.

Lemma view_blocked s c i n j b :
  view s c i (mk n acquire_suspended) j b -> exec (Tick i) s = None.
Proof. intros (Hc & Hi & Hj). simpl. by rewrite Hi. Qed.

Lemma run_cons a schedule s s' :
  exec a s = Some s' -> run (a :: schedule) s = run schedule s'.
Proof. intros Hexec. simpl. by rewrite Hexec. Qed.
End ViewFacts.

(** One action of the scheduled agent, followed through the two-agent view
    [Hv]: [first] when the acting agent is the first of the view, [second]
    when it is the second. *)
Ltac first_acts lemma Hv Hij :=
  let s' := fresh "s" in
  let Hexec := fresh "Hexec" in
  let Hview := fresh "Hview" in
  edestruct lemma as (s' & Hexec & Hview);
    [exact Hv | exact Hij | vm_compute; reflexivity |];
  rewrite (run_cons _ _ _ _ Hexec); clear Hexec;
  rewrite ?resumed_here, ?resumed_nil in Hview;
  rewrite ?resumed_other in Hview by done;
  simpl Lock.resume in Hview; clear Hv; rename Hview into Hv.

Ltac second_acts lemma Hv Hij :=
  apply view_swap in Hv; first_acts lemma Hv (not_eq_sym Hij);
  apply view_swap in Hv.

(** X12.  Contention.  Let agent [i] hold the lock once, agent [j] not hold
    it, the element be 0 and nobody wait.  An [acquire()] by [j] then does
    not return: after loading, failing to exchange and calling
    [Atomics.wait], [j] is suspended as the only waiter and cannot take a
    step.  The [release()] of [i] wakes it, and two further steps of [j] end
    its [acquire()]: now [j] holds the lock and [i] does not, the element
    is 0 again.  The same end is reached when the [release()] of [i] comes
    in between the failed exchange of [j] and its [Atomics.wait]: the wait
    returns at once, and no wake-up is lost. *)
Theorem Lock_contended_acquire (s : Lock.System) (i j : nat) :
  i <> j ->
  Lock.cell s = Atomics.mkCell 0 [] ->
  Lock.agents s !! i = Some (Lock.mk 1 Lock.idle) ->
  Lock.agents s !! j = Some (Lock.mk 0 Lock.idle) ->
  (exists s1,
     Lock.run [Lock.Acquire j; Lock.Tick j; Lock.Tick j; Lock.Tick j] s = Some s1
     /\ Lock.cell s1 = Atomics.mkCell 0 [j]
     /\ Lock.agents s1 !! i = Some (Lock.mk 1 Lock.idle)
     /\ Lock.agents s1 !! j = Some (Lock.mk 0 Lock.acquire_suspended)
     /\ Lock.exec (Lock.Tick j) s1 = None
     /\ exists s2,
          Lock.run [Lock.Release i; Lock.Tick i; Lock.Tick i;
                    Lock.Tick j; Lock.Tick j] s1 = Some s2
          /\ Lock.cell s2 = Atomics.mkCell 0 []
          /\ Lock.agents s2 !! i = Some (Lock.mk 0 Lock.idle)
          /\ Lock.agents s2 !! j = Some (Lock.mk 1 Lock.idle))
  /\ (exists s3,
        Lock.run [Lock.Acquire j; Lock.Tick j; Lock.Tick j;
                  Lock.Release i; Lock.Tick i; Lock.Tick i;
                  Lock.Tick j; Lock.Tick j; Lock.Tick j] s = Some s3
        /\ Lock.cell s3 = Atomics.mkCell 0 []
        /\ Lock.agents s3 !! i = Some (Lock.mk 0 Lock.idle)
        /\ Lock.agents s3 !! j = Some (Lock.mk 1 Lock.idle)).
Proof.
  intros Hij Hcell Hi Hj.
  assert (Exclusion.view s (Atomics.mkCell 0 []) i (Lock.mk 1 Lock.idle)
            j (Lock.mk 0 Lock.idle)) as Hstart by done.
  split.
  - pose proof Hstart as Hv.
    second_acts view_acquire Hv Hij.
    second_acts view_tick Hv Hij.
    second_acts view_tick Hv Hij.
    second_acts view_tick Hv Hij.
    eexists. split; [reflexivity|].
    pose proof Hv as (Hc1 & Hi1 & Hj1).
    split; [exact Hc1|]. split; [exact Hi1|]. split; [exact Hj1|].
    split; [by eapply view_blocked, view_swap|].
    first_acts view_release Hv Hij.
    first_acts view_tick Hv Hij.
    first_acts view_tick Hv Hij.
    second_acts view_tick Hv Hij.
    second_acts view_tick Hv Hij.
    eexists. split; [reflexivity|]. exact Hv.
  - pose proof Hstart as Hv.
    second_acts view_acquire Hv Hij.
    second_acts view_tick Hv Hij.
    second_acts view_tick Hv Hij.
    first_acts view_release Hv Hij.
    first_acts view_tick Hv Hij.
    first_acts view_tick Hv Hij.
    second_acts view_tick Hv Hij.
    second_acts view_tick Hv Hij.
    second_acts view_tick Hv Hij.
    eexists. split; [reflexivity|]. exact Hv.
Qed.

Lemma Lock_contended_acquire_witness :
  exists s3,
    Lock.run [Lock.Acquire 1%nat; Lock.Tick 1%nat; Lock.Tick 1%nat;
              Lock.Release 0%nat; Lock.Tick 0%nat; Lock.Tick 0%nat;
              Lock.Tick 1%nat; Lock.Tick 1%nat; Lock.Tick 1%nat] contended_lock
    = Some s3
    /\ Lock.cell s3 = Atomics.mkCell 0 []
    /\ Lock.agents s3 !! 0%nat = Some (Lock.mk 0 Lock.idle)
    /\ Lock.agents s3 !! 1%nat = Some (Lock.mk 1 Lock.idle).
Proof.
  exact (proj2 (Lock_contended_acquire contended_lock 0%nat 1%nat
                  ltac:(discriminate) eq_refl eq_refl eq_refl)).
Defined.

(** ** Signal: waiting and resolving *)

(** X13.  [wait()] on a signal whose element is 0 suspends the caller as
    the last waiter and leaves the element at 0; a [resolve()] without a
    count then wakes every waiter, the caller among them, and leaves the
    element at 1 with nobody waiting.  On an element that is 1, [wait()]
    returns at once and changes nothing; so it does after any [resolve()].
    On any other value it throws "Unexpected signal value" and changes
    nothing. *)
Theorem Signal_wait_resolve (agent : nat) (c : Atomics.Cell)
    (agentsToNotify : option Z) :
  (Atomics.value c = 0 ->
     Waiting.wait agent c
     = (None, Atomics.mkCell 0 (Atomics.waiters c ++ [agent]))
     /\ Signal.resolve None (Waiting.wait agent c).2
        = (Atomics.waiters c ++ [agent], Atomics.mkCell 1 []))
  /\ (Atomics.value c = 1 -> Waiting.wait agent c = (Some (Ok tt), c))
  /\ (Atomics.value c <> 0 -> Atomics.value c <> 1 ->
      Waiting.wait agent c
      = (Some (Throw (Error "Unexpected signal value")), c))
  /\ Waiting.wait agent (Signal.resolve agentsToNotify c).2
     = (Some (Ok tt), (Signal.resolve agentsToNotify c).2).
Proof.
  destruct c as [v ws].
  unfold Waiting.wait, Waiting.check, Atomics.wait, Signal.resolve,
    Atomics.notify. simpl.
  assert (Atomics.ToInt32 0 = 0) as -> by reflexivity.
  assert (Atomics.ToInt32 1 = 1) as -> by reflexivity.
  split.
  { intros ->. simpl. split; [done|]. by rewrite firstn_all, drop_all. }
  split; [by intros ->|].
  split; [|done].
  intros H0 H1.
  destruct (Z.eqb_spec v 0); [done|]. simpl.
  by destruct (Z.eqb_spec v 1).
Qed.

(** ** Record.Type: padding *)

Section PaddingFacts.
Import Record_Type Layout.

Lemma place_next ps : forall sz (i : nat) fi fj,
  place sz ps !! i = Some fi -> place sz ps !! S i = Some fj ->
  offset fj.2
  = Alignment.align (offset fi.2 + field_size fi.2) (field_alignment fj.2).
Proof.
  induction ps as [|[n0 t0] ps IH]; intros sz i fi fj; simpl; [done|].
  destruct i as [|i]; simpl.
  - intros [= <-]. destruct ps as [|[n1 t1] ps]; simpl; [done|].
    by intros [= <-].
  - apply IH.
Qed.
End PaddingFacts.

(** X14.  On a record type that the constructor returned, for declarations
    whose sizes are not negative and whose running offset ends below 2^53
    (the range in which the numbers of the source are exact), the first
    field is at offset 0, and every further field starts at or after the
    end of the field declared before it, less than its own alignment later:
    the padding in front of a field is smaller than the field's
    alignment. *)
Theorem Record_Type_padding (props : list Record_Type.Properties)
    (r : Record_Type.t) :
  Layout.nonneg_sizes (concat props) ->
  Layout.stop 0 (concat props) < 2 ^ 53 ->
  Record_Type.constructor props = Ok r ->
  (forall first, Record_Type.fields r !! 0%nat = Some first ->
     Record_Type.offset first.2 = 0)
  /\ (forall (i : nat) fi fj,
        Record_Type.fields r !! i = Some fi ->
        Record_Type.fields r !! S i = Some fj ->
        Record_Type.offset fi.2 + Layout.field_size fi.2
        <= Record_Type.offset fj.2
        < Record_Type.offset fi.2 + Layout.field_size fi.2
          + Alignment.to_Z (Layout.field_alignment fj.2)).
Proof.
  intros _ _ ->%constructor_Ok. simpl. split.
  - destruct (concat props) as [|[n0 t0] ps]; simpl; [done|].
    intros first [= <-]. simpl. unfold Alignment.align.
    pose proof (Alignment_to_Z_pos (PropertyType.alignment t0)).
    rewrite Z.div_small by lia. lia.
  - intros i fi fj Hi Hj. rewrite (place_next _ _ _ _ _ Hi Hj).
    split; [apply Alignment_align_ge | apply Alignment_align_lt].
Qed.

Lemma Record_Type_padding_witness :
  Record_Type.offset ("_size"%string, Record_Type.mkFieldInfo u32 0).2 = 0.
Proof.
  exact (proj1 (Record_Type_padding [SharedObject_properties] SharedObject_type
                  ltac:(repeat constructor; simpl; lia) eq_refl eq_refl)
           _ eq_refl).
Defined.
